(** * Digit-Classification: the drawing pad of [drawingapp.py]

    A shallow embedding of [DrawingApp]: the 28x28 intensity grid, the
    antialiased brush, the MNIST-style preprocessing and the ranked results
    panel, with the properties of the specification stated over them.

    Numbers are modelled as the program has them.  Pixel intensities are
    IEEE 754 binary32 values ([np.float32]), Python floats are binary64;
    both are [spec_float]s of the Standard Library, whose operations round
    to nearest even.  Pointer coordinates and cell indices are integers;
    the program pushes them through float arithmetic ([(y - 15.0) // 10],
    [(c + 0.5) * 10 - x]) that is exact on integers of that size, so they
    stay in [Z] here.

    The state is passed explicitly: the grid, the fill colour of every
    canvas cell, the text of the results panel, and a log of the vectors
    given to the network.  An index outside the grid is an error, [None].
    Where it matters which array is which, in [_update_results], the
    arrays and images are objects of a store, with their allocations and
    views.

    Two collaborators stay abstract: the Gaussian blur of the imaging
    library and the forward pass of the trained network ([network.py]).
    The affine transform of the imaging library is modelled by its
    documented meaning. *)

From Stdlib Require Import ZArith Lia Ascii String Floats.SpecFloat.
From stdpp Require Import base option list strings pretty sorting.

Local Open Scope Z_scope.

(** ** IEEE 754 formats *)

Module Binary64.
Definition prec : Z := 53.
Definition emax : Z := 1024.
Definition of_Z (z : Z) : spec_float := binary_normalize prec emax z 0 false.
Definition sub : spec_float → spec_float → spec_float := SFsub prec emax.
Definition mul : spec_float → spec_float → spec_float := SFmul prec emax.
Definition div : spec_float → spec_float → spec_float := SFdiv prec emax.
Definition sqrt : spec_float → spec_float := SFsqrt prec emax.
End Binary64.

Module Binary32.
Definition prec : Z := 24.
Definition emax : Z := 128.
Definition of_Z (z : Z) : spec_float := binary_normalize prec emax z 0 false.
Definition sub : spec_float → spec_float → spec_float := SFsub prec emax.
Definition mul : spec_float → spec_float → spec_float := SFmul prec emax.
Definition div : spec_float → spec_float → spec_float := SFdiv prec emax.
(** The cast of a binary64 value on a store into a float32 array. *)
Definition of_binary64 (x : spec_float) : spec_float :=
  match x with
  | S754_finite s m e => binary_round prec emax s m e
  | _ => x
  end.
Definition zero : spec_float := S754_zero false.
Definition one : spec_float := of_Z 1.
End Binary32.

Global Instance spec_float_eq_dec : EqDecision spec_float.
Proof. solve_decision. Defined.

Definition is_nan (x : spec_float) : bool :=
  match x with S754_nan => true | _ => false end.

Definition is_zero (x : spec_float) : bool :=
  match x with S754_zero _ => true | _ => false end.

(** [int(x)] and the C cast to an integer type: truncation toward zero.
    Both are applied to finite values only (an intensity, a centre of
    mass); the other cases are mapped to 0. *)
Definition trunc (x : spec_float) : Z :=
  match x with
  | S754_finite s m e =>
      cond_Zopp s (if 0 <=? e then Z.pos m * 2 ^ e else Z.pos m / 2 ^ (- e))
  | _ => 0
  end.

(** ** Python and NumPy scalars

    A scalar is a NumPy [float32] or a Python [float].  An operation on two
    Python floats is a binary64 operation; as soon as a [float32] takes
    part, the Python float is cast to binary32 and the operation is done
    there (the promotion rule of NumPy 2, where a Python scalar adopts the
    type of the NumPy operand). *)

Inductive scalar : Type :=
  | Np32 (v : spec_float)
  | Py64 (v : spec_float).

Definition to32 (a : scalar) : spec_float :=
  match a with
  | Np32 v => v
  | Py64 v => Binary32.of_binary64 v
  end.

(** [a > b] *)
Definition sc_gt (a b : scalar) : bool :=
  match a, b with
  | Py64 x, Py64 y => SFltb y x
  | _, _ => SFltb (to32 b) (to32 a)
  end.

(** [max(a, b)]: the first argument unless the second is greater. *)
Definition py_max (a b : scalar) : scalar :=
  if sc_gt b a then b else a.

Definition sc_sub (a b : scalar) : scalar :=
  match a, b with
  | Py64 x, Py64 y => Py64 (Binary64.sub x y)
  | _, _ => Np32 (Binary32.sub (to32 a) (to32 b))
  end.

Definition sc_mul (a b : scalar) : scalar :=
  match a, b with
  | Py64 x, Py64 y => Py64 (Binary64.mul x y)
  | _, _ => Np32 (Binary32.mul (to32 a) (to32 b))
  end.

Definition sc_int (a : scalar) : Z :=
  match a with Np32 v | Py64 v => trunc v end.

(** ** Text formatting *)

(** The line feed that ends every line of the results panel. *)
Definition newline : string := String "010"%char EmptyString.

Definition hex_digit (d : Z) : string :=
  match d with
  | 0 => "0" | 1 => "1" | 2 => "2" | 3 => "3" | 4 => "4" | 5 => "5"
  | 6 => "6" | 7 => "7" | 8 => "8" | 9 => "9" | 10 => "a" | 11 => "b"
  | 12 => "c" | 13 => "d" | 14 => "e" | _ => "f"
  end.

(** [f"{g:02x}"], for the byte values the brush produces. *)
Definition format_02x (g : Z) : string :=
  hex_digit (g / 16 mod 16) +:+ hex_digit (g mod 16).

Fixpoint spaces (n : nat) : string :=
  match n with
  | O => EmptyString
  | S k => " " +:+ spaces k
  end.

(** Right alignment in a field of [w] characters. *)
Definition pad_left (w : nat) (s : string) : string :=
  spaces (w - String.length s) +:+ s.

Definition two_digits (n : Z) : string :=
  pretty (n / 10 mod 10) +:+ pretty (n mod 10).

(** [f"{x:.2f}"]: the decimal expansion of the exact binary value, rounded
    to two places, ties to even. *)
Definition format_2f (x : spec_float) : string :=
  match x with
  | S754_nan => "nan"
  | S754_infinity s => if s then "-inf" else "inf"
  | S754_zero s => if s then "-0.00" else "0.00"
  | S754_finite s m e =>
      let num := if 0 <=? e then 100 * Z.pos m * 2 ^ e else 100 * Z.pos m in
      let den := if 0 <=? e then 1 else 2 ^ (- e) in
      let q := num / den in
      let r := num mod den in
      let q := if (den <? 2 * r) || ((den =? 2 * r) && Z.odd q) then q + 1 else q in
      (if s then "-" else EmptyString) +:+ pretty (q / 100) +:+ "." +:+ two_digits (q mod 100)
  end.

(** ** Grids *)

Abbreviation grid A := (list (list A)) (only parsing).

(** [g[r, c]] for indices that address the array from its start.  [None]
    stands for an index outside [0 .. n-1]: past the end NumPy raises
    [IndexError], below zero it would wrap around to the other edge. *)
Definition grid_get {A} (g : grid A) (r c : Z) : option A :=
  if (r <? 0) || (c <? 0) then None
  else row ← g !! Z.to_nat r; row !! Z.to_nat c.

(** [g[r, c] = v] *)
Definition grid_set {A} (g : grid A) (r c : Z) (v : A) : option (grid A) :=
  if (r <? 0) || (c <? 0) then None
  else
    row ← g !! Z.to_nat r;
    _ ← row !! Z.to_nat c;
    Some (<[Z.to_nat r := <[Z.to_nat c := v]> row]> g).

(** [for i in l: s = body(i, s)], stopping at the first error. *)
Fixpoint for_each {S : Type} (l : list Z) (body : Z → S → option S) (s : S)
  : option S :=
  match l with
  | [] => Some s
  | i :: l' => s' ← body i s; for_each l' body s'
  end.

(** [range(lo, hi)] *)
Definition range (lo hi : Z) : list Z := seqZ lo (hi - lo).

(** ** The application state *)

Definition rows : Z := 28.
Definition cols : Z := 28.
Definition cell_size : Z := 10.
(** [self.cell_size * 1.5] *)
Definition brush_radius : Z := cell_size * 3 / 2.

Record App : Type := mkApp {
  (** [self.pixels], float32 intensities *)
  pixels : grid spec_float;
  (** the fill colour of the canvas rectangle [self.cell_ids[r, c]] *)
  cell_fill : grid string;
  (** the content of [self.results_text] *)
  results_text : string;
  (** the vectors handed to [self.net.feedforward] so far *)
  forward_log : list (list spec_float)
}.

Definition has_shape {A} (g : grid A) : bool :=
  (Z.of_nat (length g) =? rows)
  && forallb (λ row, Z.of_nat (length row) =? cols) g.

Definition wf (a : App) : Prop :=
  has_shape (pixels a) = true ∧ has_shape (cell_fill a) = true.

Definition set_pixel (a : App) (r c : Z) (v : spec_float) : option App :=
  g ← grid_set (pixels a) r c v;
  Some (mkApp g (cell_fill a) (results_text a) (forward_log a)).

(** [self.canvas.itemconfig(self.cell_ids[r, c], fill=color)] *)
Definition itemconfig (a : App) (r c : Z) (color : string) : option App :=
  f ← grid_set (cell_fill a) r c color;
  Some (mkApp (pixels a) f (results_text a) (forward_log a)).

Definition set_results (a : App) (text : string) : App :=
  mkApp (pixels a) (cell_fill a) text (forward_log a).

(** ** [_update_results] *)

(** [np.any] *)
Definition np_any (g : grid spec_float) : bool :=
  existsb (existsb (λ v, negb (is_zero v))) g.

Definition zero_line (d : Z) : string := pretty d +:+ ":    0.00%" +:+ newline.

Definition zero_display : string :=
  foldr (λ d acc, zero_line d +:+ acc) EmptyString (range 0 10).

(** [(self.pixels * 255).astype(np.uint8)] *)
Definition to_uint8 (v : spec_float) : Z :=
  trunc (Binary32.mul v (Binary32.of_Z 255)) mod 256.

Definition scale_to_bytes (g : grid spec_float) : grid Z :=
  map (map to_uint8) g.

(** [np.nonzero(img)] with the values [img[img > 0]]: row, column and
    weight of every nonzero pixel, in row-major order. *)
Definition nonzero (img : grid Z) : list (Z * Z * Z) :=
  concat (imap (λ i row,
    omap (λ '(j, v), if v =? 0 then None else Some (Z.of_nat i, Z.of_nat j, v))
         (imap pair row)) img).

Definition zsum (l : list Z) : Z := foldr Z.add 0 l.

(** [np.average(a, weights=w)]: products and sums of small integers, exact
    in binary64, then one division. *)
Definition np_average (a w : list Z) : spec_float :=
  Binary64.div (Binary64.of_Z (zsum (zip_with Z.mul a w)))
               (Binary64.of_Z (zsum w)).

(** [Image.transform(size, AFFINE, (1, 0, sx, 0, 1, sy), fillcolor=0)]:
    the output pixel (x, y) is taken from the input position
    (x + sx, y + sy); positions outside the input give the fill colour. *)
Definition affine_translate (img : grid Z) (sx sy : Z) : grid Z :=
  imap (λ y row,
    imap (λ x _, default 0 (grid_get img (Z.of_nat y + sy) (Z.of_nat x + sx)))
         row) img.

(** Lines 129-144: the centre-of-mass shift. *)
Definition center_shift (img : grid Z) : Z * Z :=
  let coords := nonzero img in
  let weights := map snd coords in
  let cy := np_average (map (λ p, fst (fst p)) coords) weights in
  let cx := np_average (map (λ p, snd (fst p)) coords) weights in
  let shift_y := trunc (Binary64.sub (Binary64.of_Z (rows / 2)) cy) in
  let shift_x := trunc (Binary64.sub (Binary64.of_Z (cols / 2)) cx) in
  (shift_x, shift_y).

Definition recenter (img : grid Z) : grid Z :=
  match nonzero img with
  | [] => img
  | _ :: _ =>
      let '(shift_x, shift_y) := center_shift img in
      affine_translate img shift_x shift_y
  end.

(** [np.minimum] and [np.maximum] on two values, and their reductions. *)
Definition fmin (a b : spec_float) : spec_float :=
  if SFleb a b || is_nan a then a else b.

Definition fmax (a b : spec_float) : spec_float :=
  if SFleb b a || is_nan a then a else b.

Definition np_min (l : list spec_float) : spec_float :=
  match l with
  | [] => S754_nan
  | v :: l' => foldl fmin v l'
  end.

Definition np_max (l : list spec_float) : spec_float :=
  match l with
  | [] => S754_nan
  | v :: l' => foldl fmax v l'
  end.

(** Lines 150-154: the contrast stretch of the blurred 8-bit image. *)
Definition contrast_stretch (img : grid Z) : grid spec_float :=
  let np_img := map (map Binary32.of_Z) img in
  let mn := np_min (concat np_img) in
  let mx := np_max (concat np_img) in
  if SFltb mn mx then
    map (map (λ v, Binary32.div (Binary32.sub v mn) (Binary32.sub mx mn))) np_img
  else np_img.

(** [np.argsort] of a short vector: an insertion sort of the indices by
    value, NaN last. *)
Definition np_lt (a b : spec_float) : bool :=
  SFltb a b || (is_nan b && negb (is_nan a)).

Fixpoint sort_insert (x : nat * spec_float) (l : list (nat * spec_float))
  : list (nat * spec_float) :=
  match l with
  | [] => [x]
  | y :: l' => if np_lt (snd x) (snd y) then x :: y :: l' else y :: sort_insert x l'
  end.

Definition argsort (v : list spec_float) : list nat :=
  map fst (foldl (λ acc x, sort_insert x acc) [] (imap pair v)).

(** [np.argsort(probs)[::-1]] *)
Definition ranking (probs : list spec_float) : list nat :=
  reverse (argsort probs).

(** [f"{d}: {pct:6.2f}%\n"] with [pct = probs[d] * 100] *)
Definition ranked_line (probs : list spec_float) (d : nat) : string :=
  let pct := Binary64.mul (default S754_nan (probs !! d)) (Binary64.of_Z 100) in
  pretty d +:+ ": " +:+ pad_left 6 (format_2f pct) +:+ "%" +:+ newline.

Definition ranked_display (probs : list spec_float) : string :=
  foldr (λ d acc, ranked_line probs d +:+ acc) EmptyString (ranking probs).

(** ** [_antialiased_paint]: the brush on one cell *)

(** [math.hypot] on integer offsets: the correctly rounded root of the
    exact sum of squares. *)
Definition hypot (dx dy : Z) : spec_float :=
  Binary64.sqrt (Binary64.of_Z (dx * dx + dy * dy)).

(** Distance from the centre of cell (r, c) to the pointer. *)
Definition cell_dist (x y r c : Z) : spec_float :=
  let cx := (2 * c + 1) * cell_size / 2 in
  let cy := (2 * r + 1) * cell_size / 2 in
  hypot (cx - x) (cy - y).

(** [1.0 - dist / self.brush_radius] *)
Definition falloff (dist : spec_float) : spec_float :=
  Binary64.sub (Binary64.of_Z 1)
               (Binary64.div dist (Binary64.of_Z brush_radius)).

Definition gray_color (intensity : scalar) : string :=
  let gray := sc_int (sc_mul (Py64 (Binary64.of_Z 255))
                             (sc_sub (Py64 (Binary64.of_Z 1)) intensity)) in
  "#" +:+ format_02x gray +:+ format_02x gray +:+ format_02x gray.

(** The body of the two loops, on the state and the [updated] flag. *)
Definition paint_cell (x y r c : Z) (st : App * bool) : option (App * bool) :=
  let '(a, updated) := st in
  let dist := cell_dist x y r c in
  if SFleb dist (Binary64.of_Z brush_radius) then
    let intensity := Py64 (falloff dist) in
    old ← grid_get (pixels a) r c;
    let intensity := py_max (Np32 old) intensity in
    if sc_gt intensity (Np32 old) then
      a ← set_pixel a r c (to32 intensity);
      a ← itemconfig a r c (gray_color intensity);
      Some (a, true)
    else Some (a, updated)
  else Some (a, updated).

Definition r_min (y : Z) : Z := Z.max 0 ((y - brush_radius) / cell_size).
Definition r_max (y : Z) : Z := Z.min (rows - 1) ((y + brush_radius) / cell_size).
Definition c_min (x : Z) : Z := Z.max 0 ((x - brush_radius) / cell_size).
Definition c_max (x : Z) : Z := Z.min (cols - 1) ((x + brush_radius) / cell_size).

(** ** Arrays and images as objects

    A NumPy array and an image of the imaging library are objects: two
    names can stand for one buffer, and an operation either allocates a new
    object or works on an existing one.  The store holds the buffers of the
    pixel data, a location is the position of an object in it.  An
    allocation appends an object; nothing is ever freed, so a location
    stays valid. *)

Inductive obj : Type :=
  | F32 (g : list (list spec_float))
  | U8 (g : list (list Z)).

Abbreviation store := (list obj) (only parsing).

(** A new object: the store with it, and its location. *)
Definition alloc (h : store) (o : obj) : store * nat := (h ++ [o], length h).

(** The content of a float array and of an 8-bit array or image. *)
Definition read_f32 (h : store) (l : nat) : option (grid spec_float) :=
  match h !! l with
  | Some (F32 g) => Some g
  | _ => None
  end.

Definition read_u8 (h : store) (l : nat) : option (grid Z) :=
  match h !! l with
  | Some (U8 g) => Some g
  | _ => None
  end.

(** A write through a reference: the object is replaced where it is. *)
Definition overwrite (h : store) (l : nat) (o : obj) : option store :=
  match h !! l with
  | Some _ => Some (<[l := o]> h)
  | None => None
  end.

(** The steps of [_update_results] on the store.  Each takes the store
    and the location of its input, and gives the store after it and the
    location of its result. *)

(** [img = (self.pixels * 255).astype(np.uint8)]: the product is a new
    array, the cast another. *)
Definition scale_to_bytes_in (h : store) (p : nat) : option (store * nat) :=
  px ← read_f32 h p;
  let '(h, scaled) :=
    alloc h (F32 (map (map (λ v, Binary32.mul v (Binary32.of_Z 255))) px)) in
  g ← read_f32 h scaled;
  Some (alloc h (U8 (map (map (λ v, trunc v mod 256)) g))).

(** Lines 127-144.  [Image.fromarray(img)] is an image on the buffer of
    [img]; [nonzero], the boolean index and the averages read it;
    [transform] returns a new image. *)
Definition recenter_in (h : store) (img : nat) : option (store * nat) :=
  let pil_img := img in
  g ← read_u8 h img;
  match nonzero g with
  | [] => Some (h, pil_img)
  | _ :: _ =>
      let '(shift_x, shift_y) := center_shift g in
      src ← read_u8 h pil_img;
      Some (alloc h (U8 (affine_translate src shift_x shift_y)))
  end.

(** Lines 150-154.  [np.array(pil_img)] copies the image, [astype] makes
    the float array; [np_img - mn] and the quotient are new arrays, and
    the name [np_img] is bound to the last. *)
Definition contrast_stretch_in (h : store) (pil_img : nat)
  : option (store * nat) :=
  src ← read_u8 h pil_img;
  let '(h, arr) := alloc h (U8 src) in
  src ← read_u8 h arr;
  let '(h, np_img) := alloc h (F32 (map (map Binary32.of_Z) src)) in
  g ← read_f32 h np_img;
  let mn := np_min (concat g) in
  let mx := np_max (concat g) in
  if SFltb mn mx then
    let '(h, diff) := alloc h (F32 (map (map (λ v, Binary32.sub v mn)) g)) in
    num ← read_f32 h diff;
    let den := Binary32.sub mx mn in
    Some (alloc h (F32 (map (map (λ v, Binary32.div v den)) num)))
  else Some (h, np_img).

(** * Vocabulary of the specification *)

(** ** What a stroke leaves in a cell *)

(** Squared Euclidean distance from the centre of cell (r, c) to the
    pointer, in exact arithmetic. *)
Definition cell_dist2 (x y r c : Z) : Z :=
  let cx := (2 * c + 1) * cell_size / 2 in
  let cy := (2 * r + 1) * cell_size / 2 in
  (cx - x) * (cx - x) + (cy - y) * (cy - y).

(** The intensity the specification gives a cell whose centre is at
    squared distance [d2] from the pointer: [1 - distance / radius], the
    distance being the square root of [d2], computed on Python floats and
    held as a float32. *)
Definition linear_falloff (d2 : Z) : spec_float :=
  Binary32.of_binary64
    (Binary64.sub (Binary64.of_Z 1)
       (Binary64.div (Binary64.sqrt (Binary64.of_Z d2))
                     (Binary64.of_Z brush_radius))).

(** The float [v] stands for the real number [1 - sqrt d2 / 15] up to
    rounding, said on integers: with [v = m / D], the square of
    [15 * (1 - v)] differs from [d2] by at most [2^-15]. *)
Definition near_falloff (d2 : Z) (v : spec_float) : bool :=
  match v with
  | S754_zero false => d2 =? 225
  | S754_finite false m e =>
      (e <? 0) &&
      (let D := 2 ^ (- e) in
       let u := 15 * (D - Z.pos m) in
       Z.abs (u * u - d2 * D * D) * 2 ^ 15 <=? D * D)
  | _ => false
  end.

(** The value left in cell (r, c), which held [old], once the loops of
    [_antialiased_paint] have visited it. *)
Definition painted (x y r c : Z) (old : spec_float) : spec_float :=
  let dist := cell_dist x y r c in
  if SFleb dist (Binary64.of_Z brush_radius) then
    let intensity := py_max (Np32 old) (Py64 (falloff dist)) in
    if sc_gt intensity (Np32 old) then to32 intensity else old
  else old.

(** [a'] is [a] with the cells selected by [P] painted, nothing else of
    the grid, the results panel or the network log changed. *)
Definition paints_to (x y : Z) (P : Z → Z → Prop)
    `{!∀ r c, Decision (P r c)} (a a' : App) : Prop :=
  wf a' ∧
  results_text a' = results_text a ∧
  forward_log a' = forward_log a ∧
  ∀ r c old, grid_get (pixels a) r c = Some old →
    grid_get (pixels a') r c =
      Some (if decide (P r c) then painted x y r c old else old).

Definition in_box (x y r c : Z) : Prop :=
  (r_min y ≤ r ≤ r_max y) ∧ (c_min x ≤ c ≤ c_max x).

(** ** The order of floats

    Every float is given a key in [Z * Z * Z], ordered lexicographically,
    so that the comparisons of the program become comparisons of keys. *)

Definition key (x : spec_float) : Z * Z * Z :=
  match x with
  | S754_nan => (3, 0, 0)
  | S754_infinity s => (if s then -2 else 2, 0, 0)
  | S754_zero _ => (0, 0, 0)
  | S754_finite s m e => if s then (-1, - e, Z.neg m) else (1, e, Z.pos m)
  end.

Definition key_lt (a b : Z * Z * Z) : Prop :=
  a.1.1 < b.1.1 ∨
  (a.1.1 = b.1.1 ∧ (a.1.2 < b.1.2 ∨ (a.1.2 = b.1.2 ∧ a.2 < b.2))).

(** ** Displays and images *)

Definition all_zero (g : grid spec_float) : bool :=
  forallb (forallb is_zero) g.



(** [(v - mn) / (mx - mn)] on float32 values of 8-bit pixels. *)
Definition rescale (mn mx v : Z) : spec_float :=
  Binary32.div (Binary32.sub (Binary32.of_Z v) (Binary32.of_Z mn))
               (Binary32.sub (Binary32.of_Z mx) (Binary32.of_Z mn)).

Definition is_byte (v : Z) : bool := (0 <=? v) && (v <=? 255).

Definition byte_image (img : grid Z) : bool := forallb (forallb is_byte) img.

(** [x] may stand before [y] in ascending order. *)
Definition pair_le (x y : nat * spec_float) : Prop := np_lt y.2 x.2 = false.

(** The probability of digit [d] is not below that of digit [e]. *)
Definition not_below (probs : list spec_float) (d e : nat) : Prop :=
  ∃ pd pe, probs !! d = Some pd ∧ probs !! e = Some pe ∧
           SFltb pd pe = false ∧
           (is_nan pd = false → is_nan pe = false → SFleb pe pd = true).

(** The text up to the first line feed. *)
Fixpoint first_line (s : string) : string :=
  match s with
  | EmptyString => EmptyString
  | String c s' => if Ascii.eqb c "010" then EmptyString else String c (first_line s')
  end.

(** ** Reading the results panel

    What a reader sees on the panel: its lines, and on each line the digit
    the line is about. *)

(** The lines of a text, each without its line feed. *)
Fixpoint text_lines (s : string) : list string :=
  match s with
  | EmptyString => []
  | String c s' =>
      if Ascii.eqb c "010" then EmptyString :: text_lines s'
      else match text_lines s' with
           | [] => [String c EmptyString]
           | l :: ls => String c l :: ls
           end
  end.

(** The digit a line starts with, when a colon follows it. *)
Definition line_digit (l : string) : option nat :=
  match l with
  | String c (String c' _) =>
      let n := nat_of_ascii c in
      if Ascii.eqb c' ":" && (48 <=? n)%nat && (n <=? 57)%nat
      then Some (n - 48)%nat else None
  | _ => None
  end.

(** A text without a line feed. *)
Fixpoint one_line (s : string) : bool :=
  match s with
  | EmptyString => true
  | String c s' => negb (Ascii.eqb c "010") && one_line s'
  end.

(** ** Objects made during a call *)

(** The store [h] is the store [h0] of the start of a call with objects
    added behind it, and location [l], one of the added ones, holds [o]. *)
Definition holds (h0 h : store) (l : nat) (o : obj) : Prop :=
  (∃ new, h = h0 ++ new) ∧ (length h0 ≤ l)%nat ∧ h !! l = Some o.

(** The vector [0.1, 0, 0, 0, 0, 0, 0, 0, 0, 0.9] of Python floats. *)
Definition mock_probs : list spec_float :=
  [Binary64.div (Binary64.of_Z 1) (Binary64.of_Z 10)]
  ++ replicate 8 (S754_zero false)
  ++ [Binary64.div (Binary64.of_Z 9) (Binary64.of_Z 10)].

(** ** The states the application reaches *)

(** The intensity of the brush at squared distance [n] from the pointer,
    as [_antialiased_paint] computes it and as the grid stores it. *)
Definition brush64 (n : Z) : spec_float :=
  falloff (Binary64.sqrt (Binary64.of_Z n)).

Definition brush32 (n : Z) : spec_float := Binary32.of_binary64 (brush64 n).

(** A float that is +0 or positive, and at most 1. *)
Definition unit32 (v : spec_float) : bool :=
  match v with
  | S754_zero false => true
  | S754_finite false _ _ => SFleb v Binary32.one
  | _ => false
  end.

(** A pixel and the colour of its canvas cell agree: a blank cell is white,
    a painted one holds a brush intensity and shows the gray of it,
    [int(255 * (1 - intensity))] on the three channels. *)
Definition cell_ok (p : spec_float) (f : string) : Prop :=
  (p = Binary32.zero ∧ f = "white") ∨
  ∃ n, 0 ≤ n < brush_radius * brush_radius ∧
       p = brush32 n ∧ f = gray_color (Py64 (brush64 n)).

Definition in_sync (a : App) : Prop :=
  ∀ r c p, grid_get (pixels a) r c = Some p →
    ∃ f, grid_get (cell_fill a) r c = Some f ∧ cell_ok p f.

(** The maximum of two float32 values as the brush takes it: the stored
    value unless the new one is greater. *)
Definition max32 (old new : spec_float) : spec_float :=
  if SFltb old new then new else old.

(** Some cell of [a'] holds more than it did in [a]. *)
Definition grew (a a' : App) : Prop :=
  ∃ r c old new, grid_get (pixels a) r c = Some old ∧
                 grid_get (pixels a') r c = Some new ∧
                 SFltb old new = true.

(** What the loops of a paint at (x, y), started on [a0], keep true of the
    state and the [updated] flag. *)
Definition painting (a0 : App) (s : App * bool) : Prop :=
  wf s.1 ∧ in_sync s.1 ∧
  results_text s.1 = results_text a0 ∧ forward_log s.1 = forward_log a0 ∧
  (∀ r c old, grid_get (pixels a0) r c = Some old →
     ∃ new, grid_get (pixels s.1) r c = Some new ∧
            (new = old ∨ SFltb old new = true)) ∧
  ((s.2 = false ∧ s.1 = a0) ∨ (s.2 = true ∧ grew a0 s.1)).

(** What one paint at (x, y) makes of the value [v] of cell (r, c). *)
Definition brushed (x y r c : Z) (v : spec_float) : spec_float :=
  if cell_dist2 x y r c <=? brush_radius * brush_radius
  then max32 v (brush32 (cell_dist2 x y r c)) else v.

(** ** Sample inputs *)

(** The identity, standing in for the blur. *)
Definition no_blur (img : grid Z) : grid Z := img.

(** A network that answers [mock_probs] whatever it is given. *)
Definition mock_net (_ : list spec_float) : list spec_float := mock_probs.

(** A blank 28x28 pad with a single cell, (10, 10), at full intensity. *)
Definition one_pixel_app : App :=
  let blank := replicate 28 (replicate 28 Binary32.zero) in
  mkApp (<[10%nat := <[10%nat := Binary32.one]> (replicate 28 Binary32.zero)]> blank)
        (replicate 28 (replicate 28 "white")) EmptyString [].

(** A filter and a network that empty the buffer they are handed. *)
Definition wipe_image (_ : grid Z) : grid Z := [].

Definition wipe_array (_ : grid spec_float) : grid spec_float := [].

(** A store of two objects: an 8-bit array, and the grid of
    [one_pixel_app] at location 1. *)
Definition sample_store : store := [U8 [[7]]; F32 (pixels one_pixel_app)].

(** * The parts that call the blur and the network *)

Section Collaborators.

(** [ImageFilter.GaussianBlur(radius=0.5)] of the imaging library. *)
Variable gaussian_blur : grid Z → grid Z.

(** [self.net.feedforward]: the trained network of [network.py], a vector
    of 784 intensities to a vector of class probabilities (binary64). *)
Variable feedforward : list spec_float → list spec_float.

(** The vector given to the network. *)
Definition preprocess (g : grid spec_float) : list spec_float :=
  let img := scale_to_bytes g in
  let pil_img := recenter img in
  let pil_img := gaussian_blur pil_img in
  let np_img := contrast_stretch pil_img in
  concat np_img.

Definition update_results (a : App) : App :=
  if negb (np_any (pixels a)) then set_results a zero_display
  else
    let vect := preprocess (pixels a) in
    let probs := feedforward vect in
    mkApp (pixels a) (cell_fill a) (ranked_display probs)
          (forward_log a ++ [vect]).

(** ** [_update_results] on the store

    The filter and the network are code of other modules.  Each is handed
    a reference to an object, and nothing is assumed of what it does to
    the buffer behind it: [blur_leaves] and [net_leaves] give the content
    of the argument after the call. *)
Variable blur_leaves : grid Z → grid Z.
Variable net_leaves : grid spec_float → grid spec_float.

(** [pil_img.filter(ImageFilter.GaussianBlur(radius=0.5))]: the result is
    a new image. *)
Definition gaussian_blur_in (h : store) (pil_img : nat) : option (store * nat) :=
  src ← read_u8 h pil_img;
  h ← overwrite h pil_img (U8 (blur_leaves src));
  Some (alloc h (U8 (gaussian_blur src))).

(** [p] is the location of [self.pixels].  The result is the store after
    the call, the text put in the results panel and the vectors given to
    the network.  [reshape] gives a view: [vect] is the object [np_img]. *)
Definition update_results_in (h : store) (p : nat)
  : option (store * string * list (list spec_float)) :=
  px ← read_f32 h p;
  if negb (np_any px) then Some (h, zero_display, [])
  else
    '(h, img) ← scale_to_bytes_in h p;
    '(h, pil_img) ← recenter_in h img;
    '(h, pil_img) ← gaussian_blur_in h pil_img;
    '(h, np_img) ← contrast_stretch_in h pil_img;
    let vect := np_img in
    g ← read_f32 h vect;
    let probs := feedforward (concat g) in
    h ← overwrite h vect (F32 (net_leaves g));
    Some (h, ranked_display probs, [concat g]).

Definition antialiased_paint (a : App) (x y : Z) : option App :=
  '(a, updated) ←
    for_each (range (r_min y) (r_max y + 1))
      (λ r, for_each (range (c_min x) (c_max x + 1)) (paint_cell x y r))
      (a, false);
  Some (if updated : bool then update_results a else a).

(** A stroke: one call per pointer position. *)
Fixpoint paint_all (a : App) (stroke : list (Z * Z)) : option App :=
  match stroke with
  | [] => Some a
  | (x, y) :: rest => a' ← antialiased_paint a x y; paint_all a' rest
  end.

(** ** [clear] *)

Definition clear (a : App) : option App :=
  let a := mkApp (map (map (λ _, Binary32.zero)) (pixels a))
                 (cell_fill a) (results_text a) (forward_log a) in
  a ← for_each (range 0 rows)
        (λ r, for_each (range 0 cols) (λ c a, itemconfig a r c "white")) a;
  Some (update_results a).

(** ** [__init__] *)

Definition init_app : App :=
  update_results
    (mkApp (replicate (Z.to_nat rows) (replicate (Z.to_nat cols) Binary32.zero))
           (replicate (Z.to_nat rows) (replicate (Z.to_nat cols) "white"))
           EmptyString []).

(** ** The handlers

    What the window system delivers: a press and a drag carry the pointer
    position, a release carries nothing of use, and the Clear button calls
    [clear].  The handlers run on the state and the flag [self.drawing]. *)

Inductive event : Type :=
  | ButtonPress (x y : Z)
  | Motion (x y : Z)
  | ButtonRelease
  | ClearClick.

Definition start_draw (s : App * bool) (x y : Z) : option (App * bool) :=
  a' ← antialiased_paint s.1 x y; Some (a', true).

Definition draw (s : App * bool) (x y : Z) : option (App * bool) :=
  if s.2 then a' ← antialiased_paint s.1 x y; Some (a', s.2) else Some s.

Definition stop_draw (s : App * bool) : App * bool := (s.1, false).

(** The bindings of [__init__]. *)
Definition handle (s : App * bool) (e : event) : option (App * bool) :=
  match e with
  | ButtonPress x y => start_draw s x y
  | Motion x y => draw s x y
  | ButtonRelease => Some (stop_draw s)
  | ClearClick => a' ← clear s.1; Some (a', s.2)
  end.

Fixpoint run_events (s : App * bool) (es : list event) : option (App * bool) :=
  match es with
  | [] => Some s
  | e :: rest => s' ← handle s e; run_events s' rest
  end.

(** ** What the panel should show *)

(** The text of the results panel for a grid. *)
Definition display_of (g : grid spec_float) : string :=
  if negb (np_any g) then zero_display
  else ranked_display (feedforward (preprocess g)).

(** What holds of every state the handlers produce from start-up. *)
Definition consistent (a : App) : Prop :=
  wf a ∧ in_sync a ∧ results_text a = display_of (pixels a).

(** The pointer moving over the positions [moves]. *)
Definition motions (moves : list (Z * Z)) : list event :=
  map (λ p, Motion p.1 p.2) moves.

(** A press or a drag, the events that can paint. *)
Definition is_pointer_event (e : event) : bool :=
  match e with
  | ButtonPress _ _ | Motion _ _ => true
  | ButtonRelease | ClearClick => false
  end.

(** * Properties *)

(** ** Grids and loops *)

Lemma grid_get_Some {A} (g : grid A) r c v :
  grid_get g r c = Some v ↔
  0 ≤ r ∧ 0 ≤ c ∧ ∃ row, g !! Z.to_nat r = Some row ∧ row !! Z.to_nat c = Some v.
Proof.
  unfold grid_get. destruct (r <? 0) eqn:Hr; [|destruct (c <? 0) eqn:Hc]; simpl.
  - split; [discriminate | lia].
  - split; [discriminate | lia].
  - destruct (g !! Z.to_nat r) as [row|]; simpl.
    + split; [intros H; repeat split; try lia; eauto | intros (_ & _ & row' & [= <-] & H); done].
    + split; [discriminate | intros (_ & _ & row' & [=] & _)].
Qed.

Lemma has_shape_spec {A} (g : grid A) :
  has_shape g = true ↔
  length g = Z.to_nat rows ∧ ∀ i row, g !! i = Some row → length row = Z.to_nat cols.
Proof.
  unfold has_shape. rewrite andb_true_iff, forallb_forall, Z.eqb_eq.
  split.
  - intros [Hl Hr]. split; [unfold rows in *; lia|].
    intros i row Hi. apply list_elem_of_lookup_2, list_elem_of_In, Hr in Hi.
    apply Z.eqb_eq in Hi. unfold cols in *. lia.
  - intros [Hl Hr]. split; [unfold rows in *; lia|].
    intros row Hin. apply list_elem_of_In, list_elem_of_lookup_1 in Hin as [i Hi].
    apply Hr in Hi. apply Z.eqb_eq. unfold cols in *. lia.
Qed.

Lemma has_shape_get {A} (g : grid A) r c :
  has_shape g = true →
  is_Some (grid_get g r c) ↔ (0 ≤ r < rows ∧ 0 ≤ c < cols).
Proof.
  intros [Hl Hr]%has_shape_spec. split.
  - intros [v (? & ? & row & Hrow & Hv)%grid_get_Some].
    pose proof (lookup_lt_Some _ _ _ Hrow). pose proof (lookup_lt_Some _ _ _ Hv).
    rewrite (Hr _ _ Hrow) in *. lia.
  - intros [? ?]. destruct (lookup_lt_is_Some_2 g (Z.to_nat r)) as [row Hrow]; [lia|].
    destruct (lookup_lt_is_Some_2 row (Z.to_nat c)) as [v Hv]; [rewrite (Hr _ _ Hrow); lia|].
    exists v. apply grid_get_Some. split; [lia|]. split; [lia|]. eauto.
Qed.

Lemma grid_set_spec {A} (g : grid A) r c old v :
  grid_get g r c = Some old →
  ∃ g', grid_set g r c v = Some g' ∧
        (has_shape g = true → has_shape g' = true) ∧
        ∀ r' c', grid_get g' r' c' =
                 if decide (r' = r ∧ c' = c) then Some v else grid_get g r' c'.
Proof.
  intros (Hr & Hc & row & Hrow & Hold)%grid_get_Some.
  unfold grid_set. rewrite !(proj2 (Z.ltb_ge _ _)) by lia. simpl.
  rewrite Hrow. simpl. rewrite Hold. simpl. eexists; split; [done|]. split.
  - rewrite !has_shape_spec. intros [Hl Hs]. split; [by rewrite length_insert|].
    intros i row' Hi. destruct (decide (i = Z.to_nat r)) as [->|].
    + rewrite list_lookup_insert_eq in Hi by eauto using lookup_lt_Some.
      injection Hi as <-. rewrite length_insert. eauto.
    + rewrite list_lookup_insert_ne in Hi by done. eauto.
  - intros r' c'. unfold grid_get at 1.
    destruct (r' <? 0) eqn:Hr'; [|destruct (c' <? 0) eqn:Hc']; simpl.
    + rewrite decide_False by lia. unfold grid_get. by rewrite Hr'.
    + rewrite decide_False by lia. unfold grid_get. by rewrite Hr', Hc'.
    + apply Z.ltb_ge in Hr', Hc'. destruct (decide (r' = r)) as [->|Hne].
      * rewrite list_lookup_insert_eq by eauto using lookup_lt_Some. simpl.
        destruct (decide (c' = c)) as [->|Hne].
        -- rewrite decide_True by done.
           by rewrite list_lookup_insert_eq by eauto using lookup_lt_Some.
        -- rewrite decide_False by tauto.
           rewrite list_lookup_insert_ne by lia.
           unfold grid_get. rewrite !(proj2 (Z.ltb_ge _ _)) by lia. simpl.
           by rewrite Hrow.
      * rewrite decide_False by tauto. rewrite list_lookup_insert_ne by lia.
        unfold grid_get. by rewrite !(proj2 (Z.ltb_ge _ _)) by lia.
Qed.

Lemma for_each_invariant {S : Type} (I : list Z → S → Prop) (body : Z → S → option S) l :
  ∀ pre s,
    I pre s →
    (∀ pre' i post s, pre ++ l = pre' ++ i :: post → I pre' s →
       ∃ s', body i s = Some s' ∧ I (pre' ++ [i]) s') →
    ∃ s', for_each l body s = Some s' ∧ I (pre ++ l) s'.
Proof.
  induction l as [|i l IH]; intros pre s HI Hstep; simpl.
  - exists s. by rewrite app_nil_r.
  - destruct (Hstep pre i l s eq_refl HI) as (s1 & -> & HI1). simpl.
    destruct (IH (pre ++ [i]) s1 HI1) as (s' & Hs' & HI').
    + intros pre' j post s0 Heq. apply (Hstep pre' j post).
      by rewrite <- Heq, <- app_assoc.
    + exists s'. split; [done|]. by rewrite <- app_assoc in HI'.
Qed.

(** ** The order of floats *)

Lemma np_lt_key a b : np_lt a b = true ↔ key_lt (key a) (key b).
Proof.
  unfold np_lt, SFltb, key_lt.
  destruct a as [sa|sa| |sa ma ea], b as [sb|sb| |sb mb eb]; simpl;
    try destruct sa; try destruct sb; simpl;
    try (split; [discriminate || lia | lia || (intros; exfalso; lia)]).
  all: change (Pos.compare_cont Eq ?m ?n) with (Pos.compare m n).
  all: destruct (Z.compare_spec ea eb), (Pos.compare_spec ma mb); simpl;
    split; try discriminate; try lia; try reflexivity.
Qed.

Lemma SFltb_np_lt a b : SFltb a b = true ↔ np_lt a b = true ∧ is_nan b = false.
Proof.
  unfold np_lt. destruct (SFltb a b) eqn:Hlt; simpl.
  - split; [|done]. intros _. split; [done|].
    destruct b; try done. unfold SFltb in Hlt. by destruct a.
  - split; [done|]. intros [[? _]%andb_true_iff ?]. congruence.
Qed.

Lemma np_lt_asym a b : np_lt a b = true → np_lt b a = false.
Proof.
  intros H%np_lt_key. apply not_true_is_false. intros H'%np_lt_key.
  unfold key_lt in *. lia.
Qed.

Lemma np_lt_false_trans a b c :
  np_lt b a = false → np_lt c b = false → np_lt c a = false.
Proof.
  intros H1%not_true_iff_false H2%not_true_iff_false.
  apply not_true_is_false. intros H3%np_lt_key.
  rewrite np_lt_key in H1, H2. unfold key_lt in *. lia.
Qed.

Lemma SFltb_irrefl a : SFltb a a = false.
Proof.
  apply not_true_is_false. intros [H%np_lt_key _]%SFltb_np_lt.
  unfold key_lt in H. lia.
Qed.

Lemma SFltb_trans a b c :
  SFltb a b = true → SFltb b c = true → SFltb a c = true.
Proof.
  intros [H1%np_lt_key _]%SFltb_np_lt [H2%np_lt_key Hc]%SFltb_np_lt.
  apply SFltb_np_lt. split; [|done]. apply np_lt_key. unfold key_lt in *. lia.
Qed.

Lemma SFltb_asym a b : SFltb a b = true → SFltb b a = false.
Proof.
  intros Hab. apply not_true_is_false. intros Hba.
  pose proof (SFltb_trans _ _ _ Hab Hba) as H. by rewrite SFltb_irrefl in H.
Qed.

(** ** Checking a property on every integer of an interval *)

Lemma forallb_range (p : Z → bool) lo hi :
  forallb p (range lo hi) = true → ∀ z, lo ≤ z < hi → p z = true.
Proof.
  intros H z Hz. rewrite forallb_forall in H. apply H.
  apply list_elem_of_In, elem_of_seqZ. lia.
Qed.

(** ** One cell of the brush *)

Lemma painted_max x y r c old :
  SFleb (cell_dist x y r c) (Binary64.of_Z brush_radius) = true →
  painted x y r c old =
    to32 (py_max (Np32 old) (Py64 (falloff (cell_dist x y r c)))).
Proof.
  intros Hin. unfold painted. rewrite Hin. cbv zeta.
  unfold py_max. destruct (sc_gt (Py64 _) (Np32 old)) eqn:Hgt.
  - by rewrite Hgt.
  - simpl. by rewrite SFltb_irrefl.
Qed.

Lemma painted_outside x y r c old :
  SFleb (cell_dist x y r c) (Binary64.of_Z brush_radius) = false →
  painted x y r c old = old.
Proof. intros Hout. unfold painted. by rewrite Hout. Qed.

Lemma painted_grows x y r c old :
  painted x y r c old = old ∨ SFltb old (painted x y r c old) = true.
Proof.
  unfold painted. destruct (SFleb _ _); [|by left]. cbv zeta.
  destruct (sc_gt _ (Np32 old)) eqn:Hgt; [right|by left].
  by destruct (py_max _ _).
Qed.

Lemma paints_to_refl x y a : wf a → paints_to x y (λ _ _, False) a a.
Proof. intros Hwf. repeat split; try done; apply Hwf. Qed.

Lemma paints_to_ext x y (P Q : Z → Z → Prop)
    `{!∀ r c, Decision (P r c)} `{!∀ r c, Decision (Q r c)} a a' :
  (∀ r c, P r c ↔ Q r c) → paints_to x y P a a' → paints_to x y Q a a'.
Proof.
  intros HPQ (Hwf & Ht & Hl & Hpx). repeat split; try done; try apply Hwf.
  intros r c old Hold. rewrite (Hpx _ _ _ Hold).
  f_equal. apply decide_ext, HPQ.
Qed.

Lemma paints_to_trans x y (P Q : Z → Z → Prop)
    `{!∀ r c, Decision (P r c)} `{!∀ r c, Decision (Q r c)} a a1 a2 :
  (∀ r c, P r c → Q r c → False) →
  paints_to x y P a a1 → paints_to x y Q a1 a2 →
  paints_to x y (λ r c, P r c ∨ Q r c) a a2.
Proof.
  intros Hdisj (_ & Ht1 & Hl1 & Hpx1) (Hwf & Ht2 & Hl2 & Hpx2).
  repeat split; try congruence; try apply Hwf.
  intros r c old Hold. rewrite (Hpx2 _ _ _ (Hpx1 _ _ _ Hold)). f_equal.
  destruct (decide (P r c)) as [HP|HP], (decide (Q r c)) as [HQ|HQ].
  - destruct (Hdisj _ _ HP HQ).
  - by rewrite decide_True by tauto.
  - by rewrite decide_True by tauto.
  - by rewrite decide_False by tauto.
Qed.

Lemma paint_cell_spec x y r c a u :
  wf a → 0 ≤ r < rows → 0 ≤ c < cols →
  ∃ a' u', paint_cell x y r c (a, u) = Some (a', u') ∧
           paints_to x y (λ r' c', r' = r ∧ c' = c) a a'.
Proof.
  intros [Hpx Hfill] Hr Hc.
  destruct (proj2 (has_shape_get (pixels a) r c Hpx)) as [old Hold]; [done|].
  destruct (proj2 (has_shape_get (cell_fill a) r c Hfill)) as [col Hcol]; [done|].
  assert (Hskip : painted x y r c old = old →
                  paints_to x y (λ r' c', r' = r ∧ c' = c) a a).
  { intros Heq. repeat split; try done. intros r' c' old' Hold'.
    rewrite Hold'. f_equal. case_decide as Hrc; [|done].
    destruct Hrc as [-> ->]. rewrite Hold in Hold'. by injection Hold' as <-. }
  unfold paint_cell.
  destruct (SFleb (cell_dist x y r c) (Binary64.of_Z brush_radius)) eqn:Hin.
  - rewrite Hold. simpl.
    destruct (sc_gt (py_max (Np32 old) (Py64 (falloff (cell_dist x y r c))))
                    (Np32 old)) eqn:Hgt.
    + destruct (grid_set_spec (pixels a) r c old
                  (to32 (py_max (Np32 old) (Py64 (falloff (cell_dist x y r c)))))
                  Hold) as (g' & Hset & Hshape & Hget).
      unfold set_pixel. rewrite Hset. simpl.
      destruct (grid_set_spec (cell_fill a) r c col
                  (gray_color (py_max (Np32 old) (Py64 (falloff (cell_dist x y r c)))))
                  Hcol) as (f' & Hsetf & Hshapef & _).
      unfold itemconfig. simpl. rewrite Hsetf. simpl.
      eexists _, _. split; [done|]. repeat split; simpl; auto.
      intros r' c' old' Hold'. rewrite Hget.
      case_decide as Hrc; [|done]. destruct Hrc as [-> ->].
      rewrite Hold in Hold'. injection Hold' as <-.
      unfold painted. rewrite Hin. cbv zeta. by rewrite Hgt.
    + eexists _, _. split; [done|]. apply Hskip.
      unfold painted. rewrite Hin. cbv zeta. by rewrite Hgt.
  - eexists _, _. split; [done|]. apply Hskip.
    unfold painted. by rewrite Hin.
Qed.

(** ** The two loops *)

Lemma paint_row_spec x y r cs a u :
  wf a → 0 ≤ r < rows → NoDup cs → (∀ c, c ∈ cs → 0 ≤ c < cols) →
  ∃ a' u', for_each cs (paint_cell x y r) (a, u) = Some (a', u') ∧
           paints_to x y (λ r' c', r' = r ∧ c' ∈ cs) a a'.
Proof.
  intros Hwf Hr Hnd Hcs.
  destruct (for_each_invariant
              (λ done s, paints_to x y (λ r' c', r' = r ∧ c' ∈ done) a s.1)
              (paint_cell x y r) cs [] (a, u)) as ([a' u'] & Hrun & Hinv).
  - simpl. eapply paints_to_ext, paints_to_refl; [|done].
    intros r' c'. rewrite elem_of_nil. tauto.
  - simpl. intros pre c post [a1 u1] -> Hinv. simpl in Hinv.
    destruct (paint_cell_spec x y r c a1 u1) as (a2 & u2 & Hcell & Hstep).
    + apply Hinv.
    + done.
    + apply Hcs. rewrite elem_of_app, elem_of_cons. tauto.
    + exists (a2, u2). split; [done|]. simpl.
      eapply paints_to_ext; [|eapply paints_to_trans; [|exact Hinv|exact Hstep]].
      * intros r' c'. simpl. rewrite elem_of_app, list_elem_of_singleton. tauto.
      * simpl. intros r' c' [_ Hin] [_ ->].
        apply NoDup_app in Hnd as (_ & Hnot & _).
        apply (Hnot c Hin). left.
  - eauto.
Qed.

Lemma paint_box_spec x y rs cs a :
  wf a → NoDup rs → (∀ r, r ∈ rs → 0 ≤ r < rows) →
  NoDup cs → (∀ c, c ∈ cs → 0 ≤ c < cols) →
  ∃ a' u', for_each rs (λ r, for_each cs (paint_cell x y r)) (a, false)
             = Some (a', u') ∧
           paints_to x y (λ r c, r ∈ rs ∧ c ∈ cs) a a'.
Proof.
  intros Hwf Hndr Hrs Hndc Hcs.
  destruct (for_each_invariant
              (λ done s, paints_to x y (λ r c, r ∈ done ∧ c ∈ cs) a s.1)
              (λ r, for_each cs (paint_cell x y r)) rs [] (a, false))
    as ([a' u'] & Hrun & Hinv).
  - simpl. eapply paints_to_ext, paints_to_refl; [|done].
    intros r' c'. rewrite elem_of_nil. tauto.
  - simpl. intros pre r post [a1 u1] -> Hinv. simpl in Hinv.
    destruct (paint_row_spec x y r cs a1 u1) as (a2 & u2 & Hrow & Hstep);
      try done.
    + apply Hinv.
    + apply Hrs. rewrite elem_of_app, elem_of_cons. tauto.
    + exists (a2, u2). split; [done|]. simpl.
      eapply paints_to_ext; [|eapply paints_to_trans; [|exact Hinv|exact Hstep]].
      * intros r' c'. simpl. rewrite elem_of_app, list_elem_of_singleton. tauto.
      * simpl. intros r' c' [Hin _] [-> _].
        apply NoDup_app in Hndr as (_ & Hnot & _).
        apply (Hnot r Hin). left.
  - eauto.
Qed.

(** ** [_update_results] keeps the grid *)

Lemma update_results_pixels a : pixels (update_results a) = pixels a.
Proof. unfold update_results. by destruct (negb _). Qed.

Lemma update_results_cell_fill a : cell_fill (update_results a) = cell_fill a.
Proof. unfold update_results. by destruct (negb _). Qed.

Lemma update_results_wf a : wf a → wf (update_results a).
Proof.
  unfold wf. by rewrite update_results_pixels, update_results_cell_fill.
Qed.

(** ** The whole of [_antialiased_paint] *)

Lemma paint_spec a x y :
  wf a →
  ∃ a', antialiased_paint a x y = Some a' ∧ wf a' ∧
        ∀ r c old, grid_get (pixels a) r c = Some old →
          grid_get (pixels a') r c =
            Some (if decide (in_box x y r c) then painted x y r c old else old).
Proof.
  intros Hwf.
  destruct (paint_box_spec x y (range (r_min y) (r_max y + 1))
              (range (c_min x) (c_max x + 1)) a)
    as (a1 & u & Hrun & Hwf1 & _ & _ & Hpx); try done;
    try apply NoDup_seqZ.
  - intros r Hr%elem_of_seqZ. unfold r_min, r_max, rows in *. lia.
  - intros c Hc%elem_of_seqZ. unfold c_min, c_max, cols in *. lia.
  - unfold antialiased_paint. rewrite Hrun. simpl.
    eexists. split; [done|].
    assert (Hbox : ∀ r c old, grid_get (pixels a) r c = Some old →
              grid_get (pixels a1) r c =
                Some (if decide (in_box x y r c) then painted x y r c old else old)).
    { intros r c old Hold. rewrite (Hpx _ _ _ Hold). f_equal.
      apply decide_ext. unfold in_box, range. rewrite !elem_of_seqZ. lia. }
    destruct u.
    + split; [by apply update_results_wf|]. by rewrite update_results_pixels.
    + done.
Qed.

(** ** The brush test in exact arithmetic *)

Lemma hypot_within n :
  0 ≤ n ≤ 800 →
  SFleb (Binary64.sqrt (Binary64.of_Z n)) (Binary64.of_Z brush_radius)
    = (n <=? brush_radius * brush_radius).
Proof.
  intros Hn. apply Bool.eqb_prop.
  apply (forallb_range
           (λ n, Bool.eqb (SFleb (Binary64.sqrt (Binary64.of_Z n))
                                 (Binary64.of_Z brush_radius))
                          (n <=? brush_radius * brush_radius)) 0 801);
    [by vm_compute | lia].
Qed.

Lemma cell_dist_dist2 x y r c :
  cell_dist x y r c = Binary64.sqrt (Binary64.of_Z (cell_dist2 x y r c)).
Proof. reflexivity. Qed.

Lemma cell_centre k : (2 * k + 1) * cell_size / 2 = 10 * k + 5.
Proof. unfold cell_size. Z.to_euclidean_division_equations. lia. Qed.

Lemma in_box_offsets x y r c :
  in_box x y r c →
  -19 ≤ 10 * c + 5 - x ≤ 20 ∧ -19 ≤ 10 * r + 5 - y ≤ 20.
Proof.
  unfold in_box, r_min, r_max, c_min, c_max.
  change brush_radius with 15. change cell_size with 10.
  intros [Hr Hc]. Z.to_euclidean_division_equations. lia.
Qed.

Lemma in_box_dist2 x y r c : in_box x y r c → 0 ≤ cell_dist2 x y r c ≤ 800.
Proof.
  intros [Hc Hr]%in_box_offsets. unfold cell_dist2. rewrite !cell_centre.
  revert Hc Hr. generalize (10 * c + 5 - x) (10 * r + 5 - y). intros dx dy ??.
  nia.
Qed.

Lemma within_offsets dx dy : dx * dx + dy * dy ≤ 15 * 15 → -15 ≤ dx ≤ 15.
Proof. nia. Qed.

Lemma within_in_box x y r c :
  0 ≤ r < rows → 0 ≤ c < cols →
  cell_dist2 x y r c ≤ brush_radius * brush_radius → in_box x y r c.
Proof.
  unfold in_box, r_min, r_max, c_min, c_max, cell_dist2, rows, cols.
  rewrite !cell_centre. change brush_radius with 15. change cell_size with 10.
  intros Hr Hc Hd.
  pose proof (within_offsets _ _ Hd) as Hx.
  rewrite Z.add_comm in Hd. apply within_offsets in Hd.
  Z.to_euclidean_division_equations. lia.
Qed.

Lemma brush_test x y r c :
  in_box x y r c →
  SFleb (cell_dist x y r c) (Binary64.of_Z brush_radius)
    = (cell_dist2 x y r c <=? brush_radius * brush_radius).
Proof.
  intros Hbox. rewrite cell_dist_dist2. by apply hypot_within, in_box_dist2.
Qed.

(** ** The brush *)

(** The intensity of the specification is [1 - sqrt d2 / 15] to float32
    precision, at every squared distance within the radius. *)
Lemma linear_falloff_value d2 :
  0 ≤ d2 ≤ brush_radius * brush_radius →
  near_falloff d2 (linear_falloff d2) = true.
Proof.
  intros Hd.
  apply (forallb_range (λ n, near_falloff n (linear_falloff n)) 0 226);
    [by vm_compute|]. change (brush_radius * brush_radius) with 225 in Hd. lia.
Qed.

(** What the program stores for a cell within the radius is the intensity
    of the specification, unless the cell already holds as much. *)
Lemma painted_linear x y r c old :
  SFleb (cell_dist x y r c) (Binary64.of_Z brush_radius) = true →
  painted x y r c old =
    if SFltb old (linear_falloff (cell_dist2 x y r c))
    then linear_falloff (cell_dist2 x y r c) else old.
Proof.
  intros Hin. rewrite painted_max by done.
  change (falloff (cell_dist x y r c))
    with (Binary64.sub (Binary64.of_Z 1)
            (Binary64.div (Binary64.sqrt (Binary64.of_Z (cell_dist2 x y r c)))
                          (Binary64.of_Z brush_radius))).
  unfold py_max, linear_falloff. cbn [sc_gt to32].
  by destruct (SFltb old _).
Qed.

(** C3: after [_antialiased_paint(x, y)], an in-bounds cell whose centre is
    within the brush radius of the pointer lies in the bounding cell range
    and holds the greater of its old intensity and the intensity of the
    brush there, the float32 value of [1 - dist / brush_radius], [dist]
    being the distance from the centre of the cell to the pointer; an
    in-bounds cell beyond the radius keeps its intensity. *)
Theorem paint_postcondition a x y r c old :
  wf a → grid_get (pixels a) r c = Some old →
  ∃ a', antialiased_paint a x y = Some a' ∧
    (cell_dist2 x y r c ≤ brush_radius * brush_radius →
       in_box x y r c ∧
       near_falloff (cell_dist2 x y r c)
                    (linear_falloff (cell_dist2 x y r c)) = true ∧
       grid_get (pixels a') r c =
         Some (if SFltb old (linear_falloff (cell_dist2 x y r c))
               then linear_falloff (cell_dist2 x y r c) else old)) ∧
    (brush_radius * brush_radius < cell_dist2 x y r c →
       grid_get (pixels a') r c = Some old).
Proof.
  intros Hwf Hold.
  destruct (paint_spec a x y Hwf) as (a' & Hrun & _ & Hpx).
  exists a'. split; [done|]. rewrite (Hpx _ _ _ Hold).
  assert (0 ≤ r < rows ∧ 0 ≤ c < cols) as [Hr Hc].
  { apply (has_shape_get (pixels a)); [apply Hwf | by eexists]. }
  split.
  - intros Hd. pose proof (within_in_box x y r c Hr Hc Hd) as Hbox.
    split; [done|]. split.
    { apply linear_falloff_value. pose proof (in_box_dist2 x y r c Hbox). lia. }
    rewrite decide_True by done. f_equal.
    apply painted_linear. rewrite brush_test by done. by apply Z.leb_le.
  - intros Hd. f_equal. case_decide as Hbox; [|done].
    apply painted_outside. rewrite brush_test by done. by apply Z.leb_gt.
Qed.

Lemma paint_grows a x y :
  wf a →
  ∃ a', antialiased_paint a x y = Some a' ∧ wf a' ∧
        ∀ r c old, grid_get (pixels a) r c = Some old →
          ∃ new, grid_get (pixels a') r c = Some new ∧
                 (new = old ∨ SFltb old new = true).
Proof.
  intros Hwf. destruct (paint_spec a x y Hwf) as (a' & Hrun & Hwf' & Hpx).
  exists a'. repeat split; try done; try apply Hwf'.
  intros r c old Hold. eexists. split; [by apply Hpx|].
  case_decide; [apply painted_grows | by left].
Qed.

Lemma paint_all_grows stroke : ∀ a,
  wf a →
  ∃ a', paint_all a stroke = Some a' ∧ wf a' ∧
        ∀ r c old, grid_get (pixels a) r c = Some old →
          ∃ new, grid_get (pixels a') r c = Some new ∧
                 (new = old ∨ SFltb old new = true).
Proof.
  induction stroke as [|[x y] stroke IH]; intros a Hwf; simpl.
  - exists a. repeat split; try done; try apply Hwf. eauto.
  - destruct (paint_grows a x y Hwf) as (a1 & -> & Hwf1 & Hstep). simpl.
    destruct (IH a1 Hwf1) as (a' & Hrun & Hwf' & Hrest).
    exists a'. repeat split; try done; try apply Hwf'.
    intros r c old Hold.
    destruct (Hstep _ _ _ Hold) as (mid & Hmid & Hom).
    destruct (Hrest _ _ _ Hmid) as (new & Hnew & Hmn).
    exists new. split; [done|].
    destruct Hom as [->|Hom]; [done|]. destruct Hmn as [->|Hmn]; [by right|].
    right. by eapply SFltb_trans.
Qed.

Lemma run_events_grows es : ∀ a drawing,
  wf a → Forall (λ e, e ≠ ClearClick) es →
  ∃ s', run_events (a, drawing) es = Some s' ∧ wf s'.1 ∧
        ∀ r c old, grid_get (pixels a) r c = Some old →
          ∃ new, grid_get (pixels s'.1) r c = Some new ∧
                 (new = old ∨ SFltb old new = true).
Proof.
  induction es as [|e es IH]; intros a drawing Hwf Hes; cbn [run_events].
  - exists (a, drawing). repeat split; try done; try apply Hwf. eauto.
  - apply Forall_cons in Hes as [He Hes].
    assert (∃ a1 d1, handle (a, drawing) e = Some (a1, d1) ∧ wf a1 ∧
              ∀ r c old, grid_get (pixels a) r c = Some old →
                ∃ new, grid_get (pixels a1) r c = Some new ∧
                       (new = old ∨ SFltb old new = true))
      as (a1 & d1 & -> & Hwf1 & Hstep).
    { destruct e as [x y|x y| |]; try done;
        unfold handle, start_draw, draw, stop_draw; cbn [fst snd].
      - destruct (paint_grows a x y Hwf) as (a1 & -> & ? & ?). simpl. eauto.
      - destruct drawing; [|by eauto 10].
        destruct (paint_grows a x y Hwf) as (a1 & -> & ? & ?). simpl. eauto.
      - eauto 10. }
    simpl. destruct (IH a1 d1 Hwf1 Hes) as (s' & Hrun & Hwf' & Hrest).
    exists s'. repeat split; try done; try apply Hwf'.
    intros r c old Hold.
    destruct (Hstep _ _ _ Hold) as (mid & Hmid & Hom).
    destruct (Hrest _ _ _ Hmid) as (new & Hnew & Hmn).
    exists new. split; [done|].
    destruct Hom as [->|Hom]; [done|]. destruct Hmn as [->|Hmn]; [by right|].
    right. by eapply SFltb_trans.
Qed.

(** C4: along any sequence of [_antialiased_paint] calls, from any 28x28
    state, every call succeeds and no cell ends below the intensity it
    started with: it is unchanged or strictly greater.  The same holds
    along any sequence of presses, drags and releases; only a click on
    Clear is left out. *)
Theorem paint_monotonic a stroke es drawing r c old :
  wf a → grid_get (pixels a) r c = Some old →
  Forall (λ e, e ≠ ClearClick) es →
  (∃ a' new, paint_all a stroke = Some a' ∧
             grid_get (pixels a') r c = Some new ∧
             SFltb new old = false ∧
             (new = old ∨ SFltb old new = true)) ∧
  (∃ s' new, run_events (a, drawing) es = Some s' ∧
             grid_get (pixels s'.1) r c = Some new ∧
             SFltb new old = false ∧
             (new = old ∨ SFltb old new = true)).
Proof.
  intros Hwf Hold Hes.
  assert (Hnot : ∀ new, new = old ∨ SFltb old new = true → SFltb new old = false).
  { intros new [->|Hlt]; [apply SFltb_irrefl | by apply SFltb_asym]. }
  split.
  - destruct (paint_all_grows stroke a Hwf) as (a' & Hrun & _ & Hpx).
    destruct (Hpx _ _ _ Hold) as (new & Hnew & Hgrow).
    exists a', new. repeat split; auto.
  - destruct (run_events_grows es a drawing Hwf Hes) as (s' & Hrun & _ & Hpx).
    destruct (Hpx _ _ _ Hold) as (new & Hnew & Hgrow).
    exists s', new. repeat split; auto.
Qed.

Lemma for_each_skip {S : Type} (l : list Z) (s : S) :
  for_each l (λ _ s, Some s) s = Some s.
Proof. by induction l. Qed.

Lemma range_empty lo hi : hi ≤ lo → range lo hi = [].
Proof.
  intros Hle. unfold range, seqZ. by rewrite Z2Nat.nonpos by lia.
Qed.

(** C5: for any pointer position, on or off the canvas,
    [_antialiased_paint] ends without an index error, every cell its loops
    address lies in [0 .. rows-1] x [0 .. cols-1], and an empty clipped
    range leaves the state as it was. *)
Theorem paint_in_bounds a x y :
  wf a →
  (∃ a', antialiased_paint a x y = Some a') ∧
  (∀ r c, r ∈ range (r_min y) (r_max y + 1) →
          c ∈ range (c_min x) (c_max x + 1) →
          0 ≤ r ≤ rows - 1 ∧ 0 ≤ c ≤ cols - 1) ∧
  (r_max y < r_min y ∨ c_max x < c_min x → antialiased_paint a x y = Some a).
Proof.
  intros Hwf. split; [|split].
  - destruct (paint_spec a x y Hwf) as (a' & Hrun & _). eauto.
  - intros r c Hr%elem_of_seqZ Hc%elem_of_seqZ.
    unfold r_min, r_max, c_min, c_max in *. lia.
  - intros Hempty. unfold antialiased_paint.
    destruct Hempty as [Hr|Hc].
    + by rewrite (range_empty (r_min y)) by lia.
    + rewrite (range_empty (c_min x)) by lia. simpl.
      by rewrite for_each_skip.
Qed.

(** ** The all-zero display *)

Lemma np_any_all_zero g : np_any g = negb (all_zero g).
Proof.
  unfold np_any, all_zero. induction g as [|row g IH]; [done|]. simpl.
  rewrite IH, negb_andb. f_equal.
  induction row as [|v row IHrow]; [done|]. simpl.
  by rewrite IHrow, negb_andb.
Qed.



(** ** [_update_results] works on copies *)

Lemma alloc_holds (h0 h h' : store) o l :
  (∃ new, h = h0 ++ new) → alloc h o = (h', l) → holds h0 h' l o.
Proof.
  intros [new ->] [= <- <-]. split; [|split].
  - exists (new ++ [o]). by rewrite app_assoc.
  - rewrite length_app. lia.
  - by apply list_lookup_middle.
Qed.

(** An allocation keeps every object, and the new one lies behind them. *)
Lemma alloc_grows (h h' : store) o l :
  alloc h o = (h', l) →
  l = length h ∧ length h' = S (length h) ∧
  ∀ k x, h !! k = Some x → h' !! k = Some x.
Proof.
  intros [= <- <-]. split; [done|]. split.
  - rewrite length_app. simpl. lia.
  - intros k x Hk. by apply lookup_app_l_Some.
Qed.

Lemma holds_extends (h0 h : store) l o : holds h0 h l o → ∃ new, h = h0 ++ new.
Proof. by intros [? _]. Qed.

Lemma holds_f32 (h0 h : store) l g : holds h0 h l (F32 g) → read_f32 h l = Some g.
Proof. intros (_ & _ & Hl). unfold read_f32. by rewrite Hl. Qed.

Lemma holds_u8 (h0 h : store) l g : holds h0 h l (U8 g) → read_u8 h l = Some g.
Proof. intros (_ & _ & Hl). unfold read_u8. by rewrite Hl. Qed.

(** A write to an object made during the call: that object holds what was
    written, every other object is as it was. *)
Lemma holds_overwrite (h0 h : store) l o o' :
  holds h0 h l o →
  ∃ h', overwrite h l o' = Some h' ∧ holds h0 h' l o' ∧
        ∀ k x, k ≠ l → h !! k = Some x → h' !! k = Some x.
Proof.
  intros ([new ->] & Hl & Hlook). unfold overwrite. rewrite Hlook.
  eexists. split; [done|]. split; [split; [|split; [done|]]|].
  - exists (<[(l - length h0)%nat := o']> new). by rewrite insert_app_r_alt.
  - apply list_lookup_insert_eq. by eapply lookup_lt_Some.
  - intros k x Hk Hx. by rewrite list_lookup_insert_ne.
Qed.

Lemma map_map2 {A B C} (f : A → B) (g : B → C) (l : list (list A)) :
  map (map g) (map (map f) l) = map (map (λ x, g (f x))) l.
Proof.
  rewrite map_map. apply map_ext. intros row. apply map_map.
Qed.

Lemma scale_to_bytes_in_spec (h0 : store) p g :
  read_f32 h0 p = Some g →
  ∃ h img, scale_to_bytes_in h0 p = Some (h, img) ∧
           holds h0 h img (U8 (scale_to_bytes g)).
Proof.
  intros Hp. unfold scale_to_bytes_in. rewrite Hp. cbn [mbind option_bind].
  destruct (alloc h0 _) as [h1 scaled] eqn:H1.
  apply alloc_holds with (h0 := h0) in H1; [|exists []; by rewrite app_nil_r].
  rewrite (holds_f32 _ _ _ _ H1). cbn [mbind option_bind].
  destruct (alloc h1 _) as [h2 img] eqn:H2.
  apply alloc_holds with (h0 := h0) in H2; [|by eapply holds_extends].
  rewrite map_map2 in H2. eauto.
Qed.

Lemma recenter_in_spec (h0 h : store) img g :
  holds h0 h img (U8 g) →
  ∃ h' pil_img, recenter_in h img = Some (h', pil_img) ∧
                holds h0 h' pil_img (U8 (recenter g)).
Proof.
  intros Himg. unfold recenter_in, recenter.
  rewrite (holds_u8 _ _ _ _ Himg). cbn [mbind option_bind].
  destruct (nonzero g) as [|nz rest]; [eauto|].
  destruct (center_shift g) as [shift_x shift_y].
  cbn [mbind option_bind].
  destruct (alloc h _) as [h1 pil_img] eqn:H1.
  apply alloc_holds with (h0 := h0) in H1; [|by eapply holds_extends].
  eauto.
Qed.

(** The filter gets the image [pil_img], which afterwards holds what the
    filter left in it; the blurred image is a new object. *)
Lemma gaussian_blur_in_spec (h0 h : store) pil_img g :
  holds h0 h pil_img (U8 g) →
  ∃ h' blurred, gaussian_blur_in h pil_img = Some (h', blurred) ∧
                holds h0 h' blurred (U8 (gaussian_blur g)) ∧
                h' !! pil_img = Some (U8 (blur_leaves g)).
Proof.
  intros Hpil. unfold gaussian_blur_in.
  rewrite (holds_u8 _ _ _ _ Hpil). cbn [mbind option_bind].
  destruct (holds_overwrite h0 h pil_img _ (U8 (blur_leaves g)) Hpil)
    as (h1 & -> & Hleft & _).
  cbn [mbind option_bind].
  destruct (alloc h1 _) as [h2 blurred] eqn:H2.
  destruct (alloc_grows _ _ _ _ H2) as (_ & _ & Hgrows).
  apply alloc_holds with (h0 := h0) in H2; [|by eapply holds_extends].
  eexists _, _. split; [done|]. split; [done|].
  apply Hgrows, Hleft.
Qed.

(** The contrast stretch only adds objects. *)
Lemma contrast_stretch_in_spec (h0 h : store) pil_img g :
  holds h0 h pil_img (U8 g) →
  ∃ h' np_img, contrast_stretch_in h pil_img = Some (h', np_img) ∧
               holds h0 h' np_img (F32 (contrast_stretch g)) ∧
               (length h ≤ np_img)%nat ∧
               ∀ k x, h !! k = Some x → h' !! k = Some x.
Proof.
  intros Hpil. unfold contrast_stretch_in, contrast_stretch.
  rewrite (holds_u8 _ _ _ _ Hpil). cbn [mbind option_bind].
  destruct (alloc h _) as [h1 arr] eqn:H1.
  destruct (alloc_grows _ _ _ _ H1) as (_ & Hlen1 & Hg1).
  apply alloc_holds with (h0 := h0) in H1; [|by eapply holds_extends].
  rewrite (holds_u8 _ _ _ _ H1). cbn [mbind option_bind].
  destruct (alloc h1 _) as [h2 np_img] eqn:H2.
  destruct (alloc_grows _ _ _ _ H2) as (Hl2 & Hlen2 & Hg2).
  apply alloc_holds with (h0 := h0) in H2; [|by eapply holds_extends].
  rewrite (holds_f32 _ _ _ _ H2). cbn [mbind option_bind]. cbv zeta.
  destruct (SFltb _ _).
  - destruct (alloc h2 _) as [h3 diff] eqn:H3.
    destruct (alloc_grows _ _ _ _ H3) as (_ & Hlen3 & Hg3).
    apply alloc_holds with (h0 := h0) in H3; [|by eapply holds_extends].
    rewrite (holds_f32 _ _ _ _ H3). cbn [mbind option_bind].
    destruct (alloc h3 _) as [h4 quot] eqn:H4.
    destruct (alloc_grows _ _ _ _ H4) as (Hl4 & _ & Hg4).
    apply alloc_holds with (h0 := h0) in H4; [|by eapply holds_extends].
    rewrite map_map2 in H4.
    eexists _, _. split; [done|]. split; [done|]. split; [lia|]. auto.
  - eexists _, _. split; [done|]. split; [done|]. split; [lia|]. auto.
Qed.

(** The call on the store gives the panel and the network what the call
    on the grid gives them.  It only adds objects to the store, and the
    objects handed to the filter and to the network are among the added
    ones. *)
Lemma update_results_in_spec (h : store) p g :
  read_f32 h p = Some g →
  ∃ h', update_results_in h p
          = Some (h', display_of g, if np_any g then [preprocess g] else []) ∧
        (∃ new, h' = h ++ new) ∧
        (np_any g = true →
         ∃ pil_img vect,
           (length h ≤ pil_img)%nat ∧ (length h ≤ vect)%nat ∧
           read_u8 h' pil_img
             = Some (blur_leaves (recenter (scale_to_bytes g))) ∧
           read_f32 h' vect
             = Some (net_leaves (contrast_stretch
                       (gaussian_blur (recenter (scale_to_bytes g)))))).
Proof.
  intros Hp. unfold update_results_in, display_of. rewrite Hp.
  cbn [mbind option_bind].
  destruct (np_any g); cbn [negb]; last first.
  { exists h. split; [done|]. split; [|done]. exists []. by rewrite app_nil_r. }
  destruct (scale_to_bytes_in_spec h p g Hp) as (h1 & img & -> & Himg).
  cbn [mbind option_bind].
  destruct (recenter_in_spec h h1 img _ Himg) as (h2 & pil & -> & Hpil).
  cbn [mbind option_bind].
  destruct (gaussian_blur_in_spec h h2 pil _ Hpil)
    as (h3 & blurred & -> & Hbl & Hleft).
  cbn [mbind option_bind].
  destruct (contrast_stretch_in_spec h h3 blurred _ Hbl)
    as (h4 & np_img & -> & Hnp & Hfresh & Hgrows).
  cbn [mbind option_bind].
  rewrite (holds_f32 _ _ _ _ Hnp). cbn [mbind option_bind].
  destruct (holds_overwrite h h4 np_img _
              (F32 (net_leaves (contrast_stretch
                 (gaussian_blur (recenter (scale_to_bytes g)))))) Hnp)
    as (h5 & -> & Hvect & Hrest).
  cbn [mbind option_bind].
  exists h5. split; [done|]. split; [by eapply holds_extends|].
  intros _. exists pil, np_img.
  split; [apply Hpil|]. split; [apply Hvect|]. split.
  - unfold read_u8. rewrite (Hrest pil (U8 (blur_leaves (recenter (scale_to_bytes g))))).
    + done.
    + apply lookup_lt_Some in Hleft. lia.
    + by apply Hgrows.
  - by eapply holds_f32.
Qed.

(** C10: [_update_results] leaves the pixel grid as it found it.  On a
    store where [self.pixels] is the object at [p], the call ends and
    every object that was there before it is unchanged, so the grid reads
    back as before.  The image handed to the filter and the array handed
    to the network are objects made during the call: afterwards they hold
    whatever the filter and the network left in them.  The panel and the
    network get what the call on the grid alone gives them. *)
Theorem update_results_frame (h : store) p a :
  read_f32 h p = Some (pixels a) →
  ∃ h' text passes,
    update_results_in h p = Some (h', text, passes) ∧
    (∀ l o, h !! l = Some o → h' !! l = Some o) ∧
    read_f32 h' p = Some (pixels a) ∧
    text = results_text (update_results a) ∧
    forward_log (update_results a) = forward_log a ++ passes ∧
    (np_any (pixels a) = true →
     ∃ pil_img vect,
       (length h ≤ pil_img)%nat ∧ (length h ≤ vect)%nat ∧
       read_u8 h' pil_img
         = Some (blur_leaves (recenter (scale_to_bytes (pixels a)))) ∧
       read_f32 h' vect
         = Some (net_leaves (contrast_stretch
                   (gaussian_blur (recenter (scale_to_bytes (pixels a))))))).
Proof.
  intros Hp.
  destruct (update_results_in_spec h p _ Hp) as (h' & Hrun & [new ->] & Hmade).
  eexists _, _, _. split; [exact Hrun|].
  assert (∀ l o, h !! l = Some o → (h ++ new) !! l = Some o) as Hframe.
  { intros l o Hl. by apply lookup_app_l_Some. }
  split; [exact Hframe|]. split; [|split; [|split; [|exact Hmade]]].
  - unfold read_f32 in *. destruct (h !! p) as [o|] eqn:Ho; [|done].
    by rewrite (Hframe _ _ Ho).
  - unfold update_results, display_of.
    by destruct (np_any (pixels a)).
  - unfold update_results.
    destruct (np_any (pixels a)); cbn [negb]; [done|].
    simpl. by rewrite app_nil_r.
Qed.

(** ** [clear] *)

Lemma whiten_row r cs : ∀ a (Q : Z → Z → Prop),
  has_shape (cell_fill a) = true → 0 ≤ r < rows →
  (∀ c, c ∈ cs → 0 ≤ c < cols) →
  (∀ r' c', Q r' c' → grid_get (cell_fill a) r' c' = Some "white") →
  ∃ a', for_each cs (λ c a, itemconfig a r c "white") a = Some a' ∧
        pixels a' = pixels a ∧ results_text a' = results_text a ∧
        forward_log a' = forward_log a ∧
        has_shape (cell_fill a') = true ∧
        ∀ r' c', Q r' c' ∨ (r' = r ∧ c' ∈ cs) →
                 grid_get (cell_fill a') r' c' = Some "white".
Proof.
  induction cs as [|c cs IH]; intros a Q Hshape Hr Hcs HQ; cbn [for_each].
  - exists a. repeat split; try done.
    intros r' c' [?|[_ ?%elem_of_nil]]; [auto|done].
  - destruct (proj2 (has_shape_get (cell_fill a) r c Hshape)) as [col Hcol].
    { split; [done|]. apply Hcs. left. }
    destruct (grid_set_spec (cell_fill a) r c col "white" Hcol)
      as (f' & Hset & Hshape' & Hget).
    assert (itemconfig a r c "white"
            = Some (mkApp (pixels a) f' (results_text a) (forward_log a))) as ->
      by (unfold itemconfig; by rewrite Hset).
    cbn [mbind option_bind].
    destruct (IH (mkApp (pixels a) f' (results_text a) (forward_log a))
                 (λ r' c', Q r' c' ∨ (r' = r ∧ c' = c)))
      as (a' & Hrun & Hpx & Ht & Hl & Hshape'' & Hwhite); simpl; auto.
    + intros c' Hc'. apply Hcs. by right.
    + intros r' c' HQ'. rewrite Hget. case_decide; [done|].
      apply HQ. tauto.
    + exists a'. repeat split; try done. intros r' c' Hin. apply Hwhite.
      rewrite elem_of_cons in Hin. tauto.
Qed.

Lemma whiten_grid cs rs : ∀ a (Q : Z → Z → Prop),
  has_shape (cell_fill a) = true →
  (∀ r, r ∈ rs → 0 ≤ r < rows) → (∀ c, c ∈ cs → 0 ≤ c < cols) →
  (∀ r' c', Q r' c' → grid_get (cell_fill a) r' c' = Some "white") →
  ∃ a', for_each rs (λ r, for_each cs (λ c a, itemconfig a r c "white")) a
          = Some a' ∧
        pixels a' = pixels a ∧ results_text a' = results_text a ∧
        forward_log a' = forward_log a ∧
        has_shape (cell_fill a') = true ∧
        ∀ r' c', Q r' c' ∨ (r' ∈ rs ∧ c' ∈ cs) →
                 grid_get (cell_fill a') r' c' = Some "white".
Proof.
  induction rs as [|r rs IH]; intros a Q Hshape Hrs Hcs HQ; cbn [for_each].
  - exists a. repeat split; try done.
    intros r' c' [?|[?%elem_of_nil _]]; [auto|done].
  - destruct (whiten_row r cs a Q) as (a1 & -> & Hpx1 & Ht1 & Hl1 & Hshape1 & Hw1);
      auto.
    { apply Hrs. left. }
    simpl.
    destruct (IH a1 (λ r' c', Q r' c' ∨ (r' = r ∧ c' ∈ cs)))
      as (a' & Hrun & Hpx & Ht & Hl & Hshape' & Hwhite); auto.
    + intros r' Hr'. apply Hrs. by right.
    + exists a'. repeat split; try congruence. intros r' c' Hin. apply Hwhite.
      rewrite elem_of_cons in Hin. tauto.
Qed.

Lemma all_zero_fill (g : grid spec_float) :
  all_zero (map (map (λ _, Binary32.zero)) g) = true.
Proof.
  unfold all_zero. induction g as [|row g IH]; [done|]. simpl.
  rewrite IH, andb_true_r. by induction row.
Qed.

Lemma grid_get_fill {A B} (g : grid A) (v : B) r c :
  is_Some (grid_get g r c) → grid_get (map (map (λ _, v)) g) r c = Some v.
Proof.
  intros [w (Hr & Hc & row & Hrow & Hw)%grid_get_Some].
  apply grid_get_Some. split; [done|]. split; [done|].
  exists (map (λ _, v) row). split.
  - by rewrite list_lookup_fmap, Hrow.
  - by rewrite list_lookup_fmap, Hw.
Qed.


(** ** The contrast stretch *)

Lemma forallb_bytes (p : Z → spec_float → Z → spec_float → bool) :
  (let fs := map (λ a, (a, Binary32.of_Z a)) (range 0 256) in
   forallb (λ x, forallb (λ y, p x.1 x.2 y.1 y.2) fs) fs) = true →
  ∀ a b, is_byte a = true → is_byte b = true →
         p a (Binary32.of_Z a) b (Binary32.of_Z b) = true.
Proof.
  cbv zeta. intros H a b [Ha1 Ha2]%andb_true_iff [Hb1 Hb2]%andb_true_iff.
  assert (Hin : ∀ k, 0 ≤ k ≤ 255 →
            In (k, Binary32.of_Z k) (map (λ a, (a, Binary32.of_Z a)) (range 0 256))).
  { intros k Hk. apply in_map_iff. exists k. split; [done|].
    apply list_elem_of_In, elem_of_seqZ. lia. }
  rewrite forallb_forall in H.
  specialize (H (a, Binary32.of_Z a) (Hin a ltac:(lia))).
  rewrite forallb_forall in H.
  apply (H (b, Binary32.of_Z b)), Hin. lia.
Qed.

Lemma byte_order a b :
  is_byte a = true → is_byte b = true →
  SFleb (Binary32.of_Z a) (Binary32.of_Z b) = (a <=? b) ∧
  SFltb (Binary32.of_Z a) (Binary32.of_Z b) = (a <? b) ∧
  is_nan (Binary32.of_Z a) = false.
Proof.
  intros Ha Hb.
  pose proof (forallb_bytes
    (λ a fa b fb, Bool.eqb (SFleb fa fb) (a <=? b)
                  && Bool.eqb (SFltb fa fb) (a <? b)
                  && negb (is_nan fa))) as H.
  specialize (H ltac:(by vm_compute) a b Ha Hb). simpl in H.
  apply andb_true_iff in H as [[H1 H2]%andb_true_iff H3].
  apply Bool.eqb_prop in H1, H2. by apply negb_true_iff in H3.
Qed.

Lemma byte_leb a b :
  is_byte a = true → is_byte b = true →
  SFleb (Binary32.of_Z a) (Binary32.of_Z b) = (a <=? b).
Proof. intros Ha Hb. by destruct (byte_order a b Ha Hb). Qed.

Lemma byte_ltb a b :
  is_byte a = true → is_byte b = true →
  SFltb (Binary32.of_Z a) (Binary32.of_Z b) = (a <? b).
Proof. intros Ha Hb. by destruct (byte_order a b Ha Hb) as (_ & ? & _). Qed.

Lemma byte_not_nan a : is_byte a = true → is_nan (Binary32.of_Z a) = false.
Proof. intros Ha. by destruct (byte_order a a Ha Ha) as (_ & _ & ?). Qed.

Lemma byte_fmin a b :
  is_byte a = true → is_byte b = true →
  fmin (Binary32.of_Z a) (Binary32.of_Z b) = Binary32.of_Z (Z.min a b).
Proof.
  intros Ha Hb. unfold fmin. rewrite byte_leb, byte_not_nan, orb_false_r by done.
  destruct (Z.leb_spec a b); f_equal; lia.
Qed.

Lemma byte_fmax a b :
  is_byte a = true → is_byte b = true →
  fmax (Binary32.of_Z a) (Binary32.of_Z b) = Binary32.of_Z (Z.max a b).
Proof.
  intros Ha Hb. unfold fmax. rewrite byte_leb, byte_not_nan, orb_false_r by done.
  destruct (Z.leb_spec b a); f_equal; lia.
Qed.

Lemma is_byte_min a b : is_byte a = true → is_byte b = true → is_byte (Z.min a b) = true.
Proof. unfold is_byte. rewrite !andb_true_iff, !Z.leb_le. lia. Qed.

Lemma is_byte_max a b : is_byte a = true → is_byte b = true → is_byte (Z.max a b) = true.
Proof. unfold is_byte. rewrite !andb_true_iff, !Z.leb_le. lia. Qed.

Lemma foldl_fmin l : ∀ acc,
  is_byte acc = true → forallb is_byte l = true →
  foldl fmin (Binary32.of_Z acc) (map Binary32.of_Z l)
    = Binary32.of_Z (foldl Z.min acc l).
Proof.
  induction l as [|v l IH]; intros acc Hacc Hl; [done|].
  simpl in Hl. apply andb_true_iff in Hl as [Hv Hl]. simpl.
  rewrite byte_fmin by done. apply IH; [by apply is_byte_min|done].
Qed.

Lemma foldl_fmax l : ∀ acc,
  is_byte acc = true → forallb is_byte l = true →
  foldl fmax (Binary32.of_Z acc) (map Binary32.of_Z l)
    = Binary32.of_Z (foldl Z.max acc l).
Proof.
  induction l as [|v l IH]; intros acc Hacc Hl; [done|].
  simpl in Hl. apply andb_true_iff in Hl as [Hv Hl]. simpl.
  rewrite byte_fmax by done. apply IH; [by apply is_byte_max|done].
Qed.

Lemma foldl_min_least l : ∀ acc mn,
  mn ∈ acc :: l → Forall (λ v, mn ≤ v) (acc :: l) → foldl Z.min acc l = mn.
Proof.
  induction l as [|v l IH]; intros acc mn Hin Hall; simpl.
  - apply list_elem_of_singleton in Hin. done.
  - apply IH.
    + rewrite !elem_of_cons in Hin. rewrite elem_of_cons.
      apply Forall_cons in Hall as [? [? ?]%Forall_cons].
      destruct Hin as [->|[->|?]]; [left; lia|left; lia|by right].
    + apply Forall_cons in Hall as [? [? ?]%Forall_cons].
      apply Forall_cons. split; [lia|done].
Qed.

Lemma foldl_max_greatest l : ∀ acc mx,
  mx ∈ acc :: l → Forall (λ v, v ≤ mx) (acc :: l) → foldl Z.max acc l = mx.
Proof.
  induction l as [|v l IH]; intros acc mx Hin Hall; simpl.
  - apply list_elem_of_singleton in Hin. done.
  - apply IH.
    + rewrite !elem_of_cons in Hin. rewrite elem_of_cons.
      apply Forall_cons in Hall as [? [? ?]%Forall_cons].
      destruct Hin as [->|[->|?]]; [left; lia|left; lia|by right].
    + apply Forall_cons in Hall as [? [? ?]%Forall_cons].
      apply Forall_cons. split; [lia|done].
Qed.

Lemma byte_image_concat img :
  byte_image img = true → forallb is_byte (concat img) = true.
Proof.
  unfold byte_image. induction img as [|row img IH]; [done|]. simpl.
  intros [Hrow Himg]%andb_true_iff. rewrite forallb_app, Hrow. by apply IH.
Qed.

Lemma np_min_bytes l mn :
  forallb is_byte l = true → mn ∈ l → Forall (λ v, mn ≤ v) l →
  np_min (map Binary32.of_Z l) = Binary32.of_Z mn.
Proof.
  destruct l as [|v l]; [by intros _ ?%elem_of_nil|].
  intros [Hv Hl]%andb_true_iff Hin Hall. simpl.
  rewrite foldl_fmin by done. f_equal. by apply foldl_min_least.
Qed.

Lemma np_max_bytes l mx :
  forallb is_byte l = true → mx ∈ l → Forall (λ v, v ≤ mx) l →
  np_max (map Binary32.of_Z l) = Binary32.of_Z mx.
Proof.
  destruct l as [|v l]; [by intros _ ?%elem_of_nil|].
  intros [Hv Hl]%andb_true_iff Hin Hall. simpl.
  rewrite foldl_fmax by done. f_equal. by apply foldl_max_greatest.
Qed.

Lemma rescale_ends mn mx :
  is_byte mn = true → is_byte mx = true → mn < mx →
  rescale mn mx mn = Binary32.zero ∧ rescale mn mx mx = Binary32.one.
Proof.
  intros Hmn Hmx Hlt.
  pose proof (forallb_bytes
    (λ a fa b fb,
       if a <? b
       then bool_decide (Binary32.div (Binary32.sub fa fa) (Binary32.sub fb fa)
                         = Binary32.zero)
            && bool_decide (Binary32.div (Binary32.sub fb fa) (Binary32.sub fb fa)
                            = Binary32.one)
       else true)) as H.
  specialize (H ltac:(by vm_compute) mn mx Hmn Hmx). simpl in H.
  rewrite (proj2 (Z.ltb_lt _ _) Hlt) in H.
  apply andb_true_iff in H as [H0 H1].
  by apply bool_decide_eq_true in H0, H1.
Qed.

(** C7: on an 8-bit image with least value [mn] and greatest value [mx],
    the contrast stretch maps every value [v] to [(v - mn) / (mx - mn)]
    when [mn < mx], the least value to exactly 0.0 and the greatest to
    exactly 1.0; a constant image comes out as it went in. *)
Theorem contrast_stretch_spec img mn mx :
  byte_image img = true →
  mn ∈ concat img → mx ∈ concat img →
  Forall (λ v, mn ≤ v ≤ mx) (concat img) →
  (mn < mx →
     contrast_stretch img = map (map (rescale mn mx)) img ∧
     rescale mn mx mn = Binary32.zero ∧
     rescale mn mx mx = Binary32.one) ∧
  (mn = mx → contrast_stretch img = map (map Binary32.of_Z) img).
Proof.
  intros Himg Hmn Hmx Hall.
  pose proof (byte_image_concat img Himg) as Hbytes.
  assert (Hb : ∀ v, v ∈ concat img → is_byte v = true).
  { intros v Hv. rewrite forallb_forall in Hbytes.
    by apply Hbytes, list_elem_of_In. }
  assert (Hmin : np_min (concat (map (map Binary32.of_Z) img)) = Binary32.of_Z mn).
  { rewrite <- concat_map. apply np_min_bytes; try done.
    eapply Forall_impl; [exact Hall|]. simpl. lia. }
  assert (Hmax : np_max (concat (map (map Binary32.of_Z) img)) = Binary32.of_Z mx).
  { rewrite <- concat_map. apply np_max_bytes; try done.
    eapply Forall_impl; [exact Hall|]. simpl. lia. }
  unfold contrast_stretch. rewrite Hmin, Hmax, byte_ltb by auto.
  split.
  - intros Hlt. rewrite (proj2 (Z.ltb_lt _ _) Hlt). split.
    + rewrite map_map. apply map_ext. intros row. by rewrite map_map.
    + apply rescale_ends; auto.
  - intros ->. by rewrite Z.ltb_irrefl.
Qed.

(** ** The ranking *)

Lemma np_lt_false_leb a b :
  is_nan a = false → is_nan b = false → np_lt a b = false → SFleb b a = true.
Proof.
  unfold np_lt, SFltb, SFleb.
  destruct a as [sa|sa| |sa ma ea], b as [sb|sb| |sb mb eb]; simpl;
    try destruct sa; try destruct sb; simpl; try done.
  all: change (Pos.compare_cont Eq ?m ?n) with (Pos.compare m n).
  all: rewrite (Z.compare_antisym ea eb), (Pos.compare_antisym ma mb).
  all: by destruct (ea ?= eb), (ma ?= mb)%positive.
Qed.

Lemma sort_insert_perm x l : sort_insert x l ≡ₚ x :: l.
Proof.
  induction l as [|y l IH]; simpl; [done|].
  destruct (np_lt x.2 y.2); [done|]. rewrite IH. apply Permutation_swap.
Qed.

Lemma sort_insert_sorted x l :
  StronglySorted pair_le l → StronglySorted pair_le (sort_insert x l).
Proof.
  induction 1 as [|y l Hl IH Hy]; simpl.
  - repeat constructor.
  - destruct (np_lt x.2 y.2) eqn:Hlt.
    + constructor; [by constructor|]. constructor.
      * by apply np_lt_asym.
      * eapply Forall_impl; [exact Hy|]. intros z Hz. unfold pair_le in *.
        eapply np_lt_false_trans; [|exact Hz]. by apply np_lt_asym.
    + constructor; [done|]. rewrite sort_insert_perm. by constructor.
Qed.

Lemma sort_fold_spec l : ∀ acc,
  StronglySorted pair_le acc →
  StronglySorted pair_le (foldl (λ acc x, sort_insert x acc) acc l) ∧
  foldl (λ acc x, sort_insert x acc) acc l ≡ₚ acc ++ l.
Proof.
  induction l as [|x l IH]; intros acc Hacc; simpl.
  - by rewrite app_nil_r.
  - destruct (IH (sort_insert x acc)) as [Hs Hp]; [by apply sort_insert_sorted|].
    split; [done|]. rewrite Hp, sort_insert_perm. simpl. apply Permutation_middle.
Qed.

Lemma StronglySorted_with {A} (R : relation A) (P : A → Prop) l :
  StronglySorted R l → Forall P l →
  StronglySorted (λ x y, R x y ∧ P x ∧ P y) l.
Proof.
  induction 1 as [|x l Hl IH Hx]; intros HP; [constructor|].
  apply Forall_cons in HP as [HPx HPl]. constructor; [by apply IH|].
  rewrite Forall_forall in *. auto.
Qed.

Lemma StronglySorted_reverse {A} (R : relation A) l :
  StronglySorted R l → StronglySorted (flip R) (reverse l).
Proof.
  induction 1 as [|x l Hl IH Hx]; [constructor|].
  rewrite reverse_cons. apply StronglySorted_app_2; [|done|repeat constructor].
  intros y z Hy ->%list_elem_of_singleton. rewrite elem_of_reverse in Hy.
  rewrite Forall_forall in Hx. unfold flip. by apply Hx.
Qed.

Lemma imap_pair_fst {A} (l : list A) : (imap pair l).*1 = seq 0 (length l).
Proof.
  rewrite fmap_imap.
  transitivity (id <$> seq 0 (length l)); [|apply list_fmap_id].
  rewrite <- (imap_seq_0 l id). by apply imap_ext.
Qed.

Lemma ranking_spec probs :
  ranking probs ≡ₚ seq 0 (length probs) ∧
  StronglySorted (not_below probs) (ranking probs).
Proof.
  unfold ranking, argsort.
  destruct (sort_fold_spec (imap pair probs) [])
    as [Hsorted Hperm]; [constructor|]. simpl in Hperm.
  split.
  - by rewrite reverse_Permutation, Hperm, imap_pair_fst.
  - rewrite <- fmap_reverse.
    apply (StronglySorted_fmap fst
             (flip (λ x y, pair_le x y ∧ probs !! x.1 = Some x.2
                                      ∧ probs !! y.1 = Some y.2))).
    + intros [d pd] [e pe] (Hle & He & Hd). simpl in *.
      exists pd, pe. unfold pair_le in Hle. simpl in Hle.
      repeat split; try done.
      * unfold np_lt in Hle. by apply orb_false_iff in Hle as [? _].
      * intros ??. by apply np_lt_false_leb.
    + apply StronglySorted_reverse, StronglySorted_with; [done|].
      rewrite Hperm. apply Forall_forall. intros [d pd] Hin.
      apply elem_of_lookup_imap in Hin as (i & p & [= -> ->] & Hi). done.
Qed.

(** ** The lines of the panel *)

Lemma append_cons ch (s1 s2 : string) :
  String ch s1 +:+ s2 = String ch (s1 +:+ s2).
Proof. reflexivity. Qed.

Lemma append_assoc (s1 s2 s3 : string) : (s1 +:+ s2) +:+ s3 = s1 +:+ s2 +:+ s3.
Proof.
  induction s1 as [|ch s1 IH]; [done|]. by rewrite !append_cons, IH.
Qed.

Lemma one_line_app s1 s2 : one_line (s1 +:+ s2) = one_line s1 && one_line s2.
Proof.
  induction s1 as [|ch s1 IH]; [done|].
  rewrite append_cons. cbn [one_line]. by rewrite IH, andb_assoc.
Qed.

Lemma text_lines_line l rest :
  one_line l = true → text_lines (l +:+ newline +:+ rest) = l :: text_lines rest.
Proof.
  induction l as [|ch l IH]; [done|].
  intros [Hch%negb_true_iff Hl]%andb_true_iff.
  rewrite append_cons. cbn [text_lines]. by rewrite Hch, IH.
Qed.

Lemma one_line_pretty_N_go x : ∀ s,
  one_line s = true → one_line (pretty_N_go x s) = true.
Proof.
  induction (N.lt_wf_0 x) as [x _ IH]; intros s Hs.
  assert (x = 0 ∨ 0 < x)%N as [->|Hx] by lia.
  - by rewrite pretty_N_go_0.
  - rewrite pretty_N_go_step by done. apply IH; [by apply N.div_lt|].
    cbn [one_line]. rewrite Hs, andb_true_r.
    unfold pretty_N_char. by repeat case_match.
Qed.

Lemma one_line_pretty_N (x : N) : one_line (pretty x) = true.
Proof.
  unfold pretty, pretty_N. case_decide; [done|]. by apply one_line_pretty_N_go.
Qed.

Lemma one_line_pretty_Z (z : Z) : one_line (pretty z) = true.
Proof.
  destruct z as [|p|p]; [done|apply (one_line_pretty_N (Npos p))|].
  unfold pretty, pretty_Z. rewrite one_line_app.
  apply andb_true_iff. split; [done|apply (one_line_pretty_N (Npos p))].
Qed.

Lemma one_line_spaces n : one_line (spaces n) = true.
Proof. induction n as [|n IH]; [done|]. exact IH. Qed.

Lemma one_line_format_2f x : one_line (format_2f x) = true.
Proof.
  destruct x as [s|s| |s m e]; [by destruct s|by destruct s|done|].
  unfold format_2f, two_digits. cbv zeta.
  rewrite !one_line_app, !one_line_pretty_Z. by destruct s.
Qed.

(** A ranked line is one line of text, and it starts with its digit. *)
Lemma ranked_line_shape probs d :
  (d < 10)%nat →
  ∃ l, ranked_line probs d = l +:+ newline ∧
       one_line l = true ∧ line_digit l = Some d.
Proof.
  intros Hd. unfold ranked_line. cbv zeta.
  set (pct := pad_left 6 (format_2f _)).
  assert (one_line pct = true) as Hpct.
  { unfold pct, pad_left.
    by rewrite one_line_app, one_line_spaces, one_line_format_2f. }
  exists (pretty d +:+ ": " +:+ pct +:+ "%"). split; [|split].
  - by rewrite !append_assoc.
  - assert (one_line (pretty d) = true) as Hdig
      by apply (one_line_pretty_N (N.of_nat d)).
    by rewrite !one_line_app, Hpct, Hdig.
  - clearbody pct. do 10 (destruct d as [|d]; [reflexivity|]). lia.
Qed.

Lemma ranked_lines_digits probs ds :
  Forall (λ d, (d < 10)%nat) ds →
  line_digit <$> text_lines (foldr (λ d acc, ranked_line probs d +:+ acc)
                                   EmptyString ds)
    = Some <$> ds.
Proof.
  induction 1 as [|d ds Hd _ IH]; [done|]. cbn [foldr].
  destruct (ranked_line_shape probs d Hd) as (l & -> & Hl & Hdig).
  rewrite append_assoc, text_lines_line by done.
  by rewrite !fmap_cons, Hdig, IH.
Qed.

(** C8: when the network returns ten probabilities, the digits read off
    the lines of the results panel, from the first line to the last, are
    the digits 0 .. 9, each exactly once, and no digit stands before a
    digit of greater probability. *)
Theorem ranked_rendering a :
  np_any (pixels a) = true →
  length (feedforward (preprocess (pixels a))) = 10%nat →
  ∃ ds,
    line_digit <$> text_lines (results_text (update_results a)) = Some <$> ds ∧
    ds ≡ₚ seq 0 10 ∧
    StronglySorted (not_below (feedforward (preprocess (pixels a)))) ds.
Proof.
  intros Hany Hlen.
  destruct (ranking_spec (feedforward (preprocess (pixels a))))
    as [Hperm Hsorted].
  rewrite Hlen in Hperm.
  exists (ranking (feedforward (preprocess (pixels a)))). split; [|done].
  unfold update_results. rewrite Hany. cbn [negb results_text].
  unfold ranked_display. apply ranked_lines_digits, Forall_forall.
  intros d Hd. rewrite Hperm in Hd. apply elem_of_seq in Hd. lia.
Qed.

(** ** The centre-of-mass shift *)

Lemma forallb_range2 (p : Z → Z → bool) lo1 hi1 lo2 hi2 :
  (let l2 := range lo2 hi2 in forallb (λ a, forallb (p a) l2) (range lo1 hi1)) = true →
  ∀ a b, lo1 ≤ a < hi1 → lo2 ≤ b < hi2 → p a b = true.
Proof.
  cbv zeta. intros H a b Ha Hb.
  apply (forallb_range (p a) lo2 hi2); [|done].
  by apply (forallb_range (λ a, forallb (p a) (range lo2 hi2)) lo1 hi1).
Qed.

Lemma single_average k w :
  0 ≤ k < 28 → 1 ≤ w ≤ 255 →
  trunc (Binary64.sub (Binary64.of_Z 14) (np_average [k] [w])) = 14 - k.
Proof.
  intros Hk Hw. apply Z.eqb_eq.
  apply (forallb_range2
           (λ k w, trunc (Binary64.sub (Binary64.of_Z 14) (np_average [k] [w]))
                   =? 14 - k) 0 28 1 256); [by vm_compute|lia|lia].
Qed.

Lemma single_pixel_shift img r0 c0 w :
  nonzero img = [(r0, c0, w)] →
  0 ≤ r0 < rows → 0 ≤ c0 < cols → 1 ≤ w ≤ 255 →
  center_shift img = (cols / 2 - c0, rows / 2 - r0).
Proof.
  intros Hnz Hr Hc Hw. unfold center_shift. rewrite Hnz. cbn [map fst snd].
  change (rows / 2) with 14. change (cols / 2) with 14.
  by rewrite !single_average.
Qed.

Lemma affine_translate_get img sx sy r c :
  is_Some (grid_get img r c) →
  grid_get (affine_translate img sx sy) r c
    = Some (default 0 (grid_get img (r + sy) (c + sx))).
Proof.
  intros [v (Hr & Hc & row & Hrow & Hv)%grid_get_Some].
  apply grid_get_Some. split; [done|]. split; [done|].
  unfold affine_translate. eexists. split.
  - rewrite list_lookup_imap, Hrow. done.
  - rewrite list_lookup_imap, Hv. simpl. by rewrite !Z2Nat.id by done.
Qed.

Lemma nonzero_spec img r c v :
  (r, c, v) ∈ nonzero img ↔ grid_get img r c = Some v ∧ v ≠ 0.
Proof.
  unfold nonzero. rewrite list_elem_of_In, in_concat. split.
  - intros (l & Hl%list_elem_of_In & Hin%list_elem_of_In).
    apply elem_of_lookup_imap in Hl as (i & row & -> & Hrow).
    apply list_elem_of_omap in Hin as ([j w] & Hjw & Hsome).
    apply elem_of_lookup_imap in Hjw as (j' & w' & [= -> ->] & Hw).
    destruct (Z.eqb_spec w' 0); [done|]. injection Hsome as <- <- <-.
    split; [|done]. apply grid_get_Some. split; [lia|]. split; [lia|].
    exists row. by rewrite !Nat2Z.id.
  - intros [(Hr & Hc & row & Hrow & Hv)%grid_get_Some Hne].
    eexists. split.
    + apply list_elem_of_In, elem_of_lookup_imap. eauto.
    + apply list_elem_of_In, list_elem_of_omap. exists (Z.to_nat c, v). split.
      * apply elem_of_lookup_imap. eauto.
      * simpl. destruct (Z.eqb_spec v 0); [done|]. by rewrite !Z2Nat.id by done.
Qed.

(** For any image with a single nonzero pixel, off the centre: after the
    recentring the centre cell is empty, and the pixel, if it is still in
    the image, sits at (2 r0 - 14, 2 c0 - 14). *)
Lemma single_pixel_recenter img r0 c0 w :
  nonzero img = [(r0, c0, w)] →
  0 ≤ r0 < rows → 0 ≤ c0 < cols → 1 ≤ w ≤ 255 →
  ∀ r c, is_Some (grid_get img r c) →
    grid_get (recenter img) r c
      = Some (if decide (r = 2 * r0 - rows / 2 ∧ c = 2 * c0 - cols / 2) then w else 0).
Proof.
  intros Hnz Hr0 Hc0 Hw r c Hrc. unfold recenter.
  rewrite (single_pixel_shift img r0 c0 w) by done. rewrite Hnz.
  rewrite affine_translate_get by done. f_equal.
  destruct (grid_get img (r + (rows / 2 - r0)) (c + (cols / 2 - c0))) as [v|] eqn:Hv;
    simpl.
  - destruct (decide (v = 0)) as [->|Hne].
    + case_decide as Hd; [|done]. destruct Hd as [-> ->].
      replace (2 * r0 - rows / 2 + (rows / 2 - r0)) with r0 in Hv by lia.
      replace (2 * c0 - cols / 2 + (cols / 2 - c0)) with c0 in Hv by lia.
      assert ((r0, c0, w) ∈ nonzero img) as [Hget _]%nonzero_spec
        by (rewrite Hnz; left).
      rewrite Hget in Hv. injection Hv as ->. lia.
    + assert ((r + (rows / 2 - r0), c + (cols / 2 - c0), v) ∈ nonzero img) as Hin
        by (by apply nonzero_spec).
      rewrite Hnz in Hin. apply list_elem_of_singleton in Hin.
      injection Hin as Hr Hc ->. rewrite decide_True by lia. done.
  - rewrite decide_False; [done|]. intros [-> ->].
    replace (2 * r0 - rows / 2 + (rows / 2 - r0)) with r0 in Hv by lia.
    replace (2 * c0 - cols / 2 + (cols / 2 - c0)) with c0 in Hv by lia.
    assert ((r0, c0, w) ∈ nonzero img) as [Hget _]%nonzero_spec
      by (rewrite Hnz; left).
    congruence.
Qed.

(** ** The ranked display of a known vector *)

(** C2, as the program has it: when the forward pass returns
    [0.1, 0, 0, 0, 0, 0, 0, 0, 0, 0.9], the first line of the results panel
    is [9:  90.00%]: every ranked line is the digit, a colon, a space, the
    percentage with two decimals right-aligned in six characters, and a
    percent sign. *)
Theorem ranked_first_line a :
  np_any (pixels a) = true →
  feedforward (preprocess (pixels a)) = mock_probs →
  first_line (results_text (update_results a)) = "9:  90.00%" ∧
  ∀ d p, mock_probs !! d = Some p →
    ranked_line mock_probs d
      = pretty d +:+ ": "
        +:+ pad_left 6 (format_2f (Binary64.mul p (Binary64.of_Z 100)))
        +:+ "%" +:+ newline.
Proof.
  intros Hany Hnet. split.
  - unfold update_results. rewrite Hany, Hnet. by vm_compute.
  - intros d p Hp. unfold ranked_line. by rewrite Hp.
Qed.

(** * Further properties *)

(** ** Floats that are +0 or positive *)

Lemma unit32_trichotomy a b :
  unit32 a = true → unit32 b = true →
  SFltb a b = false → SFltb b a = false → a = b.
Proof.
  unfold SFltb.
  destruct a as [[]|[]| |[] ma ea], b as [[]|[]| |[] mb eb]; simpl; try done.
  change (Pos.compare_cont Eq ?m ?n) with (Pos.compare m n).
  intros _ _.
  destruct (Z.compare_spec ea eb), (Pos.compare_spec ma mb),
    (Z.compare_spec eb ea), (Pos.compare_spec mb ma);
    try done; try lia; intros; by subst.
Qed.

Lemma unit32_not_nan a : unit32 a = true → is_nan a = false.
Proof. by destruct a as [[]|[]| |[]]. Qed.

Lemma unit32_max32 a b : unit32 a = true → unit32 b = true → unit32 (max32 a b) = true.
Proof. unfold max32. by destruct (SFltb a b). Qed.

Lemma max32_idem a b : max32 (max32 a b) b = max32 a b.
Proof.
  unfold max32. destruct (SFltb a b) eqn:Hab.
  - by rewrite SFltb_irrefl.
  - by rewrite Hab.
Qed.

Lemma max32_swap o i j :
  unit32 o = true → unit32 i = true → unit32 j = true →
  max32 (max32 o i) j = max32 (max32 o j) i.
Proof.
  intros Ho Hi Hj. unfold max32.
  destruct (SFltb o i) eqn:Hoi, (SFltb o j) eqn:Hoj;
    rewrite ?Hoi, ?Hoj; try done.
  - destruct (SFltb i j) eqn:Hij, (SFltb j i) eqn:Hji; try done.
    + by rewrite (SFltb_asym _ _ Hij) in Hji.
    + by apply unit32_trichotomy.
  - destruct (SFltb i j) eqn:Hij; [|done].
    by rewrite (SFltb_trans _ _ _ Hoi Hij) in Hoj.
  - destruct (SFltb j i) eqn:Hji; [|done].
    by rewrite (SFltb_trans _ _ _ Hoj Hji) in Hoi.
Qed.

(** ** The levels of the brush *)

Lemma brush32_unit n :
  0 ≤ n ≤ brush_radius * brush_radius → unit32 (brush32 n) = true.
Proof.
  intros Hn. apply (forallb_range (λ n, unit32 (brush32 n)) 0 226);
    [by vm_compute | change (brush_radius * brush_radius) with 225 in Hn; lia].
Qed.

Lemma brush32_edge : brush32 (brush_radius * brush_radius) = Binary32.zero.
Proof. by vm_compute. Qed.

Lemma painted_max32 x y r c old :
  painted x y r c old =
    if SFleb (cell_dist x y r c) (Binary64.of_Z brush_radius)
    then max32 old (brush32 (cell_dist2 x y r c)) else old.
Proof.
  unfold painted. destruct (SFleb _ _); [|done]. cbv zeta.
  unfold py_max, max32, brush32, brush64. rewrite <- cell_dist_dist2.
  change (sc_gt (Py64 (falloff (cell_dist x y r c))) (Np32 old))
    with (SFltb old (Binary32.of_binary64 (falloff (cell_dist x y r c)))).
  destruct (SFltb old _) eqn:Hlt; simpl.
  - by rewrite Hlt.
  - by rewrite SFltb_irrefl.
Qed.

(** The pixels a paint leaves, cell by cell. *)
Lemma paint_pixels a x y :
  wf a →
  ∃ a', antialiased_paint a x y = Some a' ∧ wf a' ∧
        ∀ r c old, grid_get (pixels a) r c = Some old →
          grid_get (pixels a') r c =
            Some (if cell_dist2 x y r c <=? brush_radius * brush_radius
                  then max32 old (brush32 (cell_dist2 x y r c)) else old).
Proof.
  intros Hwf. destruct (paint_spec a x y Hwf) as (a' & Hrun & Hwf' & Hpx).
  exists a'. split; [done|]. split; [done|]. intros r c old Hold.
  rewrite (Hpx _ _ _ Hold). f_equal.
  assert (0 ≤ r < rows ∧ 0 ≤ c < cols) as [Hr Hc].
  { apply (has_shape_get (pixels a)); [apply Hwf | by eexists]. }
  destruct (Z.leb_spec (cell_dist2 x y r c) (brush_radius * brush_radius)) as [Hd|Hd].
  - rewrite decide_True by by apply within_in_box.
    rewrite painted_max32, brush_test by by apply within_in_box.
    by rewrite (proj2 (Z.leb_le _ _) Hd).
  - case_decide as Hbox; [|done].
    rewrite painted_max32, brush_test by done.
    by rewrite (proj2 (Z.leb_gt _ _) Hd).
Qed.

(** ** The whole state through the loops *)

Lemma for_each_preserves {S : Type} (P : S → Prop) (body : Z → S → option S) l :
  (∀ i s s', i ∈ l → P s → body i s = Some s' → P s') →
  ∀ s s', P s → for_each l body s = Some s' → P s'.
Proof.
  induction l as [|i l IH]; intros Hstep s s' HP Hrun; simpl in Hrun.
  - by injection Hrun as <-.
  - destruct (body i s) as [s1|] eqn:Hbody; [|done]. simpl in Hrun.
    apply (IH (λ j t t' Hj, Hstep j t t' (list_elem_of_further _ _ _ Hj)) s1 s');
      [|done].
    eapply Hstep; [left|exact HP|exact Hbody].
Qed.

Lemma grid_set_Some {A} (g g' : grid A) r c v :
  grid_set g r c v = Some g' → is_Some (grid_get g r c).
Proof.
  unfold grid_set, grid_get. destruct ((r <? 0) || (c <? 0)); [done|].
  destruct (g !! Z.to_nat r) as [row|]; [|done]. simpl.
  by destruct (row !! Z.to_nat c).
Qed.

Lemma grid_set_get {A} (g g' : grid A) r c v :
  grid_set g r c v = Some g' →
  (has_shape g = true → has_shape g' = true) ∧
  ∀ r' c', grid_get g' r' c' =
           if decide (r' = r ∧ c' = c) then Some v else grid_get g r' c'.
Proof.
  intros Hset. destruct (grid_set_Some g g' r c v Hset) as [old Hold].
  destruct (grid_set_spec g r c old v Hold) as (g1 & Hset1 & Hshape & Hget).
  rewrite Hset in Hset1. by injection Hset1 as <-.
Qed.

Lemma paint_cell_effect x y r c a u a' u' :
  paint_cell x y r c (a, u) = Some (a', u') →
  (a' = a ∧ u' = u) ∨
  (u' = true ∧ ∃ old g' f',
     SFleb (cell_dist x y r c) (Binary64.of_Z brush_radius) = true ∧
     grid_get (pixels a) r c = Some old ∧
     SFltb old (brush32 (cell_dist2 x y r c)) = true ∧
     grid_set (pixels a) r c (brush32 (cell_dist2 x y r c)) = Some g' ∧
     grid_set (cell_fill a) r c (gray_color (Py64 (brush64 (cell_dist2 x y r c))))
       = Some f' ∧
     a' = mkApp g' f' (results_text a) (forward_log a)).
Proof.
  unfold paint_cell.
  destruct (SFleb (cell_dist x y r c) (Binary64.of_Z brush_radius)) eqn:Hin;
    [|intros [= <- <-]; by left].
  destruct (grid_get (pixels a) r c) as [old|] eqn:Hold; [|done]. simpl.
  unfold py_max.
  change (sc_gt (Py64 (falloff (cell_dist x y r c))) (Np32 old))
    with (SFltb old (brush32 (cell_dist2 x y r c))).
  destruct (SFltb old (brush32 (cell_dist2 x y r c))) eqn:Hlt.
  - change (sc_gt (Py64 (falloff (cell_dist x y r c))) (Np32 old))
      with (SFltb old (brush32 (cell_dist2 x y r c))).
    rewrite Hlt. unfold set_pixel, itemconfig.
    change (to32 (Py64 (falloff (cell_dist x y r c))))
      with (brush32 (cell_dist2 x y r c)).
    destruct (grid_set (pixels a) r c _) as [g'|] eqn:Hg; [|done]. simpl.
    change (falloff (cell_dist x y r c)) with (brush64 (cell_dist2 x y r c)).
    destruct (grid_set (cell_fill a) r c _) as [f'|] eqn:Hf; [|done]. simpl.
    intros [= <- <-]. right. split; [done|]. by exists old, g', f'.
  - simpl. rewrite SFltb_irrefl. intros [= <- <-]. by left.
Qed.

Lemma unit32_not_below_zero v : unit32 v = true → SFltb v Binary32.zero = false.
Proof. by destruct v as [[]|[]| |[]]. Qed.

Lemma unit32_grown_nonzero old new :
  unit32 old = true → SFltb old new = true → is_zero new = false.
Proof. by destruct old as [[]|[]| |[]], new as [[]| | |]. Qed.

Lemma cell_ok_unit p f : cell_ok p f → unit32 p = true.
Proof.
  intros [[-> _]|(n & Hn & -> & _)]; [done|]. apply brush32_unit. lia.
Qed.

Lemma painting_step a0 x y r c s s' :
  in_box x y r c → painting a0 s → paint_cell x y r c s = Some s' → painting a0 s'.
Proof.
  destruct s as [a u], s' as [a' u'].
  intros Hbox (Hwf & Hsync & Ht & Hl & Hmono & Hflag) Hcell.
  apply paint_cell_effect in Hcell as [[-> ->]|(-> & old & g' & f' & Hin & Hold & Hlt & Hg & Hf & ->)];
    [done|].
  simpl in *.
  destruct (grid_set_get _ _ _ _ _ Hg) as [Hshape Hget].
  destruct (grid_set_get _ _ _ _ _ Hf) as [Hshapef Hgetf].
  destruct (Hsync _ _ _ Hold) as (fold & Hfold & Hok).
  pose proof (cell_ok_unit _ _ Hok) as Hunit.
  rewrite brush_test in Hin by done. apply Z.leb_le in Hin.
  pose proof (in_box_dist2 _ _ _ _ Hbox) as [Hn0 _].
  assert (cell_dist2 x y r c < brush_radius * brush_radius) as Hn.
  { destruct (decide (cell_dist2 x y r c = brush_radius * brush_radius)) as [Heq|]; [|lia].
    rewrite Heq, brush32_edge, unit32_not_below_zero in Hlt; done. }
  repeat split; simpl.
  - apply Hshape, Hwf.
  - apply Hshapef, Hwf.
  - intros r' c' p. rewrite Hget, Hgetf. case_decide as Hrc.
    + intros [= <-]. eexists. split; [done|]. right. eauto.
    + apply Hsync.
  - done.
  - done.
  - intros r' c' o Ho. destruct (Hmono _ _ _ Ho) as (mid & Hmid & Hom).
    rewrite Hget. case_decide as Hrc.
    + destruct Hrc as [-> ->]. rewrite Hold in Hmid. injection Hmid as <-.
      eexists. split; [done|]. right.
      destruct Hom as [->|Hom]; [done|]. by eapply SFltb_trans.
    + eauto.
  - right. split; [done|].
    destruct Hflag as [[_ ->]|[_ (r' & c' & o & m & Ho & Hm & Hom)]].
    + exists r, c, old, (brush32 (cell_dist2 x y r c)). repeat split; [done| |done].
      simpl. rewrite Hget. by rewrite decide_True.
    + exists r', c', o. simpl. rewrite Hget. case_decide as Hrc.
      * destruct Hrc as [-> ->]. rewrite Hold in Hm. injection Hm as <-.
        eexists. repeat split; [done..|]. by eapply SFltb_trans.
      * exists m. done.
Qed.

Lemma painting_loops a x y :
  wf a → in_sync a →
  ∃ s, for_each (range (r_min y) (r_max y + 1))
         (λ r, for_each (range (c_min x) (c_max x + 1)) (paint_cell x y r))
         (a, false) = Some s ∧
       painting a s.
Proof.
  intros Hwf Hsync.
  destruct (paint_box_spec x y (range (r_min y) (r_max y + 1))
              (range (c_min x) (c_max x + 1)) a)
    as (a1 & u & Hrun & _); try done; try apply NoDup_seqZ.
  { intros r Hr%elem_of_seqZ. unfold r_min, r_max, rows in *. lia. }
  { intros c Hc%elem_of_seqZ. unfold c_min, c_max, cols in *. lia. }
  exists (a1, u). split; [done|].
  eapply (for_each_preserves (painting a)); [|..|exact Hrun].
  - intros r s s' Hr. apply for_each_preserves. intros c t t' Hc.
    apply painting_step. unfold in_box. apply elem_of_seqZ in Hr, Hc. lia.
  - repeat split; try done; try apply Hwf; eauto.
Qed.

(** ** Grids of the same shape *)

Lemma grid_ext {A} (g1 g2 : grid A) :
  has_shape g1 = true → has_shape g2 = true →
  (∀ r c, 0 ≤ r < rows → 0 ≤ c < cols → grid_get g1 r c = grid_get g2 r c) →
  g1 = g2.
Proof.
  intros H1 H2 Hget.
  pose proof H1 as [Hl1 Hr1]%has_shape_spec. pose proof H2 as [Hl2 Hr2]%has_shape_spec.
  apply list_eq. intros i.
  destruct (g1 !! i) as [row1|] eqn:Hi1.
  - pose proof (lookup_lt_Some _ _ _ Hi1) as Hlt.
    destruct (lookup_lt_is_Some_2 g2 i) as [row2 Hi2]; [lia|]. rewrite Hi2. f_equal.
    apply list_eq. intros j.
    destruct (decide (j < length row1)%nat) as [Hj|Hj].
    + specialize (Hget (Z.of_nat i) (Z.of_nat j)).
      unfold grid_get in Hget.
      rewrite !(proj2 (Z.ltb_ge _ _)), !Nat2Z.id, Hi1, Hi2 in Hget by lia.
      rewrite (Hr1 _ _ Hi1) in Hj.
      apply Hget; [unfold rows in *; lia | unfold cols in *; lia].
    + rewrite !lookup_ge_None_2; [done| |lia].
      rewrite (Hr2 _ _ Hi2), <- (Hr1 _ _ Hi1). lia.
  - apply lookup_ge_None in Hi1. symmetry. apply lookup_ge_None. lia.
Qed.

(** ** Brush levels and their colours *)

Lemma brush32_step n :
  0 ≤ n < brush_radius * brush_radius →
  SFltb (brush32 (n + 1)) (brush32 n) = true.
Proof.
  intros Hn. apply (forallb_range (λ n, SFltb (brush32 (n + 1)) (brush32 n)) 0 225);
    [by vm_compute | change (brush_radius * brush_radius) with 225 in Hn; lia].
Qed.

Lemma brush32_decreasing n m :
  0 ≤ n → n < m → m ≤ brush_radius * brush_radius →
  SFltb (brush32 m) (brush32 n) = true.
Proof.
  intros Hn Hnm Hm.
  replace m with (n + 1 + Z.of_nat (Z.to_nat (m - n - 1))) in * by lia.
  induction (Z.to_nat (m - n - 1)) as [|k IH].
  - rewrite Z.add_0_r. apply brush32_step. lia.
  - eapply SFltb_trans; [|apply IH; lia].
    replace (n + 1 + Z.of_nat (S k)) with (n + 1 + Z.of_nat k + 1) by lia.
    apply brush32_step. lia.
Qed.

Lemma brush32_inj n m :
  0 ≤ n ≤ brush_radius * brush_radius → 0 ≤ m ≤ brush_radius * brush_radius →
  brush32 n = brush32 m → n = m.
Proof.
  intros Hn Hm Heq. destruct (Z.lt_trichotomy n m) as [Hlt|[->|Hlt]]; [|done|].
  - pose proof (brush32_decreasing n m) as H. rewrite Heq, SFltb_irrefl in H.
    by specialize (H ltac:(lia) Hlt ltac:(lia)).
  - pose proof (brush32_decreasing m n) as H. rewrite Heq, SFltb_irrefl in H.
    by specialize (H ltac:(lia) Hlt ltac:(lia)).
Qed.

(** The colour of a cell is determined by its pixel. *)
Lemma cell_ok_fun p f1 f2 : cell_ok p f1 → cell_ok p f2 → f1 = f2.
Proof.
  intros [[-> ->]|(n & Hn & -> & ->)] [[Hz ->]|(m & Hm & Hp & ->)]; try done.
  - rewrite <- brush32_edge in Hp. apply brush32_inj in Hp; lia.
  - rewrite <- brush32_edge in Hz. apply brush32_inj in Hz; lia.
  - apply brush32_inj in Hp as ->; [done|lia|lia].
Qed.

(** ** One paint, the whole state *)

Lemma np_any_cell g r c v :
  grid_get g r c = Some v → is_zero v = false → np_any g = true.
Proof.
  intros (_ & _ & row & Hrow & Hv)%grid_get_Some Hnz.
  unfold np_any. apply existsb_exists. exists row. split.
  - by eapply list_elem_of_In, list_elem_of_lookup_2.
  - apply existsb_exists. exists v. split.
    + by eapply list_elem_of_In, list_elem_of_lookup_2.
    + by rewrite Hnz.
Qed.

Lemma update_results_display a :
  results_text (update_results a) = display_of (pixels a).
Proof. unfold update_results, display_of. by destruct (negb _). Qed.

Lemma paint_effect a x y :
  wf a → in_sync a →
  ∃ a', antialiased_paint a x y = Some a' ∧ wf a' ∧ in_sync a' ∧
        (a' = a ∨
         (grew a a' ∧
          forward_log a' = forward_log a ++ [preprocess (pixels a')] ∧
          results_text a' = ranked_display (feedforward (preprocess (pixels a'))) ∧
          results_text a' = display_of (pixels a'))).
Proof.
  intros Hwf Hsync.
  destruct (painting_loops a x y Hwf Hsync)
    as ([a1 u] & Hrun & Hwf1 & Hsync1 & Ht & Hl & _ & Hflag).
  unfold antialiased_paint. rewrite Hrun. simpl in *.
  destruct Hflag as [[-> ->]|[-> Hgrew]].
  - exists a. split; [done|]. split; [done|]. split; [done|]. by left.
  - exists (update_results a1). split; [done|].
    assert (np_any (pixels a1) = true) as Hany.
    { destruct Hgrew as (r & c & old & new & Hold & Hnew & Hlt).
      apply (np_any_cell _ r c new Hnew).
      destruct (Hsync _ _ _ Hold) as (f & _ & Hok).
      eapply unit32_grown_nonzero; [by eapply cell_ok_unit|done]. }
    split; [by apply update_results_wf|]. split.
    { intros r c p. rewrite update_results_pixels, update_results_cell_fill.
      apply Hsync1. }
    right. rewrite update_results_display, update_results_pixels.
    split; [|split; [|split]]; try done.
    + destruct Hgrew as (r & c & old & new & Hold & Hnew & Hlt).
      exists r, c, old, new. by rewrite update_results_pixels.
    + unfold update_results. rewrite Hany. simpl. by rewrite Hl.
    + unfold display_of. by rewrite Hany.
Qed.

Lemma grew_pixels a a' : grew a a' → pixels a' ≠ pixels a.
Proof.
  intros (r & c & old & new & Hold & Hnew & Hlt) Heq.
  rewrite Heq, Hold in Hnew. injection Hnew as <-. by rewrite SFltb_irrefl in Hlt.
Qed.

Lemma paint_consistent a x y :
  consistent a →
  ∃ a', antialiased_paint a x y = Some a' ∧ consistent a'.
Proof.
  intros (Hwf & Hsync & Htext).
  destruct (paint_effect a x y Hwf Hsync) as (a' & Hrun & Hwf' & Hsync' & Hcase).
  exists a'. split; [done|]. repeat split; try done; try apply Hwf'.
  destruct Hcase as [->|(_ & _ & _ & ?)]; done.
Qed.

Lemma grid_get_replicate {A} (v : A) r c :
  0 ≤ r < rows → 0 ≤ c < cols →
  grid_get (replicate (Z.to_nat rows) (replicate (Z.to_nat cols) v)) r c = Some v.
Proof.
  intros Hr Hc. apply grid_get_Some. split; [lia|]. split; [lia|].
  exists (replicate (Z.to_nat cols) v).
  split; apply lookup_replicate_2; unfold rows, cols in *; lia.
Qed.

Lemma init_app_shape : wf init_app.
Proof. split; reflexivity. Qed.

Lemma init_app_cells r c :
  0 ≤ r < rows → 0 ≤ c < cols →
  grid_get (pixels init_app) r c = Some Binary32.zero ∧
  grid_get (cell_fill init_app) r c = Some "white".
Proof. intros Hr Hc. split; by apply grid_get_replicate. Qed.

Lemma clear_consistent a :
  wf a →
  ∃ a', clear a = Some a' ∧ consistent a' ∧ forward_log a' = forward_log a ∧
        pixels a' = pixels init_app ∧ cell_fill a' = cell_fill init_app ∧
        results_text a' = results_text init_app.
Proof.
  intros [Hpx Hfill]. unfold clear.
  destruct (whiten_grid (range 0 cols) (range 0 rows)
              (mkApp (map (map (λ _, Binary32.zero)) (pixels a)) (cell_fill a)
                     (results_text a) (forward_log a))
              (λ _ _, False))
    as (a1 & -> & Hpx1 & _ & Hl1 & Hshape1 & Hwhite); simpl; try done.
  { intros r Hr%elem_of_seqZ. lia. }
  { intros c Hc%elem_of_seqZ. lia. }
  simpl in Hpx1, Hl1. eexists. split; [done|].
  assert (Hz : all_zero (pixels a1) = true) by (rewrite Hpx1; apply all_zero_fill).
  assert (Hup : update_results a1 = set_results a1 zero_display)
    by (unfold update_results; by rewrite np_any_all_zero, Hz).
  assert (Hshape : has_shape (pixels a1) = true).
  { rewrite Hpx1. apply has_shape_spec. apply has_shape_spec in Hpx as [Hlen Hrow].
    rewrite length_map. split; [done|]. intros i row.
    rewrite list_lookup_fmap. destruct (pixels a !! i) eqn:Hi; [|done].
    simpl. intros [= <-]. rewrite length_map. eauto. }
  assert (Hcells : ∀ r c, 0 ≤ r < rows → 0 ≤ c < cols →
            grid_get (pixels a1) r c = Some Binary32.zero ∧
            grid_get (cell_fill a1) r c = Some "white").
  { intros r c Hr Hc. split.
    - rewrite Hpx1. apply grid_get_fill. by apply has_shape_get.
    - apply Hwhite. right. unfold range. rewrite !elem_of_seqZ. lia. }
  pose proof init_app_cells as Hinit. destruct init_app_shape as [Hsp Hsf].
  rewrite Hup. unfold set_results, consistent, wf.
  set (ip := pixels init_app) in *. set (ifl := cell_fill init_app) in *.
  set (itx := results_text init_app).
  cbn [pixels cell_fill results_text forward_log].
  split; [split; [done|split]|split; [done|split; [|split]]].
  - intros r c p Hp. cbn [pixels cell_fill] in *.
    assert (0 ≤ r < rows ∧ 0 ≤ c < cols) as [Hr Hc]
      by (apply (has_shape_get (pixels a1)); [done|by eexists]).
    destruct (Hcells r c Hr Hc) as [Hp0 Hf0]. rewrite Hp0 in Hp. injection Hp as <-.
    exists "white". split; [done|]. by left.
  - unfold display_of. by rewrite np_any_all_zero, Hz.
  - apply grid_ext; [done|done|]. intros r c Hr Hc.
    destruct (Hcells r c Hr Hc) as [-> _]. symmetry. by apply Hinit.
  - apply grid_ext; [done|done|]. intros r c Hr Hc.
    destruct (Hcells r c Hr Hc) as [_ ->]. symmetry. by apply Hinit.
  - reflexivity.
Qed.

Lemma init_consistent : consistent init_app ∧ forward_log init_app = [].
Proof.
  split; [|reflexivity]. split; [apply init_app_shape|]. split; [|reflexivity].
  intros r c p Hp.
  assert (0 ≤ r < rows ∧ 0 ≤ c < cols) as [Hr Hc]
    by (apply (has_shape_get (pixels init_app)); [apply init_app_shape|by eexists]).
  destruct (init_app_cells r c Hr Hc) as [Hp0 Hf0].
  rewrite Hp0 in Hp. injection Hp as <-. exists "white". split; [done|]. by left.
Qed.

Lemma handle_consistent s e :
  consistent s.1 → ∃ s', handle s e = Some s' ∧ consistent s'.1.
Proof.
  destruct s as [a d]. intros Hc.
  destruct e as [x y|x y| |]; unfold handle, start_draw, draw, stop_draw; cbn [fst snd].
  - destruct (paint_consistent a x y Hc) as (a' & -> & ?). simpl. eauto.
  - destruct d; [|eauto].
    destruct (paint_consistent a x y Hc) as (a' & -> & ?). simpl. eauto.
  - eauto.
  - destruct (clear_consistent a) as (a' & -> & ? & _); [apply Hc|]. simpl. eauto.
Qed.

Lemma run_events_consistent es : ∀ s,
  consistent s.1 → ∃ s', run_events s es = Some s' ∧ consistent s'.1.
Proof.
  induction es as [|e es IH]; intros s Hc; cbn [run_events]; [eauto|].
  destruct (handle_consistent s e Hc) as (s1 & -> & Hc1). simpl. by apply IH.
Qed.

(** ** Every state the handlers reach *)

Lemma reach es :
  ∃ s, run_events (init_app, false) es = Some s ∧ consistent s.1.
Proof. apply run_events_consistent, init_consistent. Qed.

Lemma unit32_bounds v :
  unit32 v = true → SFleb Binary32.zero v = true ∧ SFleb v Binary32.one = true.
Proof. by destruct v as [[]|[]| |[]]. Qed.

(** X1: whatever the sequence of presses, drags, releases and clicks on
    Clear, at whatever coordinates, no handler fails on an index, and the
    grid and the canvas keep their 28x28 shape. *)
Theorem events_never_fail es :
  ∃ s, run_events (init_app, false) es = Some s ∧ wf s.1.
Proof. destruct (reach es) as (s & Hrun & Hwf & _). eauto. Qed.

(** X2: every intensity the application ever stores lies between 0 and 1:
    it is +0 or a positive float32 not above 1.0. *)
Theorem intensities_stay_in_unit_range es :
  ∃ s, run_events (init_app, false) es = Some s ∧
       ∀ r c p, grid_get (pixels s.1) r c = Some p →
                unit32 p = true ∧
                SFleb Binary32.zero p = true ∧ SFleb p Binary32.one = true.
Proof.
  destruct (reach es) as (s & Hrun & _ & Hsync & _). exists s. split; [done|].
  intros r c p Hp. destruct (Hsync _ _ _ Hp) as (f & _ & Hok).
  pose proof (cell_ok_unit _ _ Hok) as Hu. split; [done|]. by apply unit32_bounds.
Qed.

(** X3: the canvas mirrors the grid in every reachable state: a cell whose
    pixel is 0 is white, every other pixel is the brush intensity of some
    squared distance below 225 and its cell shows the gray
    [int(255 * (1 - intensity))] of that intensity. *)
Theorem canvas_mirrors_grid es :
  ∃ s, run_events (init_app, false) es = Some s ∧
       ∀ r c p, grid_get (pixels s.1) r c = Some p →
         ∃ f, grid_get (cell_fill s.1) r c = Some f ∧
              ((p = Binary32.zero ∧ f = "white") ∨
               ∃ n, 0 ≤ n < brush_radius * brush_radius ∧ p = brush32 n ∧
                    f = gray_color (Py64 (brush64 n))).
Proof. destruct (reach es) as (s & Hrun & _ & Hsync & _). by exists s. Qed.

(** X4: in every reachable state the results panel shows the display of the
    grid as it is now: the ten zero lines for a blank grid, the ranking the
    network gives for the preprocessed grid otherwise. *)
Theorem panel_shows_current_grid es :
  ∃ s, run_events (init_app, false) es = Some s ∧
       results_text s.1 =
         (if negb (np_any (pixels s.1)) then zero_display
          else ranked_display (feedforward (preprocess (pixels s.1)))).
Proof. destruct (reach es) as (s & Hrun & _ & _ & Htext). by exists s. Qed.

(** X5: a paint in a reachable state does one of two things.  Either it
    changes nothing at all, neither grid nor canvas nor panel, and makes no
    forward pass; or it raises at least one cell, makes exactly one forward
    pass, on the preprocessed new grid, and shows the ranking of it. *)
Theorem paint_refreshes_or_rests es x y :
  ∃ s a', run_events (init_app, false) es = Some s ∧
          antialiased_paint s.1 x y = Some a' ∧
          ((pixels a' = pixels s.1 ∧ a' = s.1) ∨
           (pixels a' ≠ pixels s.1 ∧ grew s.1 a' ∧
            forward_log a' = forward_log s.1 ++ [preprocess (pixels a')] ∧
            results_text a'
              = ranked_display (feedforward (preprocess (pixels a'))))).
Proof.
  destruct (reach es) as (s & Hrun & Hwf & Hsync & _).
  destruct (paint_effect s.1 x y Hwf Hsync) as (a' & Hpaint & _ & _ & Hcase).
  exists s, a'. split; [done|]. split; [done|].
  destruct Hcase as [->|(Hgrew & Hlog & Htext & _)]; [by left|right].
  split; [by apply grew_pixels|done].
Qed.

(** X6: [clear] brings back the start-up state, grid, canvas and panel,
    from any 28x28 state, and makes no forward pass. *)
Theorem clear_restores_startup a :
  wf a →
  clear a = Some (mkApp (pixels init_app) (cell_fill init_app)
                        (results_text init_app) (forward_log a)).
Proof.
  intros Hwf.
  destruct (clear_consistent a Hwf) as ([p f t l] & -> & _ & Hl & Hp & Hf & Ht).
  simpl in *. by subst.
Qed.

(** ** Strokes *)

Lemma cell_dist2_nonneg x y r c : 0 ≤ cell_dist2 x y r c.
Proof.
  unfold cell_dist2. rewrite !cell_centre.
  generalize (10 * c + 5 - x) (10 * r + 5 - y). intros dx dy. nia.
Qed.

Lemma brushed_unit x y r c v : unit32 v = true → unit32 (brushed x y r c v) = true.
Proof.
  intros Hv. unfold brushed. destruct (Z.leb_spec (cell_dist2 x y r c) (brush_radius * brush_radius)); [|done].
  apply unit32_max32; [done|]. apply brush32_unit.
  pose proof (cell_dist2_nonneg x y r c). lia.
Qed.

Lemma brushed_swap x1 y1 x2 y2 r c v :
  unit32 v = true →
  brushed x2 y2 r c (brushed x1 y1 r c v) = brushed x1 y1 r c (brushed x2 y2 r c v).
Proof.
  intros Hv. unfold brushed.
  pose proof (cell_dist2_nonneg x1 y1 r c). pose proof (cell_dist2_nonneg x2 y2 r c).
  destruct (Z.leb_spec (cell_dist2 x1 y1 r c) (brush_radius * brush_radius)),
           (Z.leb_spec (cell_dist2 x2 y2 r c) (brush_radius * brush_radius)); try done.
  apply max32_swap; [done|apply brush32_unit; lia..].
Qed.

Lemma foldl_brushed_unit r c stroke : ∀ v,
  unit32 v = true →
  unit32 (foldl (λ v p, brushed p.1 p.2 r c v) v stroke) = true.
Proof.
  induction stroke as [|p stroke IH]; intros v Hv; [done|].
  simpl. by apply IH, brushed_unit.
Qed.

Lemma foldl_brushed_perm r c s1 s2 :
  s1 ≡ₚ s2 → ∀ v, unit32 v = true →
  foldl (λ v p, brushed p.1 p.2 r c v) v s1
    = foldl (λ v p, brushed p.1 p.2 r c v) v s2.
Proof.
  induction 1 as [|p s1 s2 _ IH|p q s|s1 s2 s3 _ IH1 _ IH2]; intros v Hv; simpl.
  - done.
  - by apply IH, brushed_unit.
  - by rewrite brushed_swap.
  - by rewrite IH1, IH2.
Qed.

Lemma paint_all_pixels stroke : ∀ a,
  wf a → in_sync a → results_text a = display_of (pixels a) →
  ∃ a', paint_all a stroke = Some a' ∧ consistent a' ∧
        ∀ r c old, grid_get (pixels a) r c = Some old →
          grid_get (pixels a') r c
            = Some (foldl (λ v p, brushed p.1 p.2 r c v) old stroke).
Proof.
  induction stroke as [|[x y] stroke IH]; intros a Hwf Hsync Htext; simpl.
  - by exists a.
  - destruct (paint_consistent a x y) as (a1 & Hpaint & Hwf1 & Hsync1 & Htext1); [done|].
    destruct (paint_pixels a x y Hwf) as (b & Hb & _ & Hpx).
    rewrite Hpaint in Hb. injection Hb as <-. rewrite Hpaint. simpl.
    destruct (IH a1 Hwf1 Hsync1 Htext1) as (a' & Hrun & Hc & Hrest).
    exists a'. split; [done|]. split; [done|]. intros r c old Hold.
    by rewrite (Hrest _ _ _ (Hpx _ _ _ Hold)).
Qed.

(** X7: the order in which the positions of a stroke are painted does not
    matter to what the user sees: two strokes that visit the same positions
    leave the same grid, the same canvas and the same results panel. *)
Theorem stroke_order_is_immaterial es s1 s2 :
  s1 ≡ₚ s2 →
  ∃ s a1 a2, run_events (init_app, false) es = Some s ∧
             paint_all s.1 s1 = Some a1 ∧ paint_all s.1 s2 = Some a2 ∧
             pixels a1 = pixels a2 ∧ cell_fill a1 = cell_fill a2 ∧
             results_text a1 = results_text a2.
Proof.
  intros Hperm. destruct (reach es) as (s & Hrun & Hwf & Hsync & Htext).
  destruct (paint_all_pixels s1 s.1 Hwf Hsync Htext)
    as (a1 & Hrun1 & (Hwf1 & Hsync1 & Htext1) & Hpx1).
  destruct (paint_all_pixels s2 s.1 Hwf Hsync Htext)
    as (a2 & Hrun2 & (Hwf2 & Hsync2 & Htext2) & Hpx2).
  exists s, a1, a2. split; [done|]. split; [done|]. split; [done|].
  assert (Hsame : ∀ r c, 0 ≤ r < rows → 0 ≤ c < cols →
            grid_get (pixels a1) r c = grid_get (pixels a2) r c).
  { intros r c Hr Hc.
    destruct (proj2 (has_shape_get (pixels s.1) r c (proj1 Hwf))) as [old Hold]; [done|].
    rewrite (Hpx1 _ _ _ Hold), (Hpx2 _ _ _ Hold). f_equal.
    apply foldl_brushed_perm; [done|].
    destruct (Hsync _ _ _ Hold) as (f & _ & Hok). by eapply cell_ok_unit. }
  assert (pixels a1 = pixels a2) as Heq
    by (apply grid_ext; [apply Hwf1|apply Hwf2|done]).
  split; [done|]. split; [|by rewrite Htext1, Htext2, Heq].
  apply grid_ext; [apply Hwf1|apply Hwf2|]. intros r c Hr Hc.
  destruct (proj2 (has_shape_get (pixels a1) r c (proj1 Hwf1))) as [p Hp]; [done|].
  destruct (Hsync1 _ _ _ Hp) as (f1 & -> & Hok1).
  rewrite Heq in Hp. destruct (Hsync2 _ _ _ Hp) as (f2 & -> & Hok2).
  f_equal. by eapply cell_ok_fun.
Qed.

Lemma motions_button_up moves a :
  run_events (a, false) (motions moves) = Some (a, false).
Proof. induction moves as [|p moves IH]; [done|]. simpl. apply IH. Qed.

(** X8: the pointer paints only while the button is held.  After a
    release, any number of pointer motions, wherever they go, leave the
    state untouched; so they do in a state where no press has happened. *)
Theorem motion_without_press_is_idle a drawing moves :
  run_events (a, drawing) (ButtonRelease :: motions moves) = Some (a, false) ∧
  run_events (a, false) (motions moves) = Some (a, false).
Proof. split; [simpl|]; apply motions_button_up. Qed.

(** X9: a pointer more than a brush radius beyond an edge of the canvas
    (x < -15, x >= 295, and the same for y) paints nothing: the state,
    whatever it is, comes back as it was and no forward pass is made. *)
Theorem pointer_far_outside_is_idle a x y :
  x < - brush_radius ∨ cols * cell_size + brush_radius ≤ x ∨
  y < - brush_radius ∨ rows * cell_size + brush_radius ≤ y →
  antialiased_paint a x y = Some a.
Proof.
  intros Hout. unfold antialiased_paint.
  assert (r_max y < r_min y ∨ c_max x < c_min x) as [Hr|Hc].
  { unfold r_min, r_max, c_min, c_max. revert Hout.
    change brush_radius with 15. change cell_size with 10.
    change rows with 28. change cols with 28.
    intros Hout. Z.to_euclidean_division_equations. lia. }
  - by rewrite (range_empty (r_min y)) by lia.
  - rewrite (range_empty (c_min x)) by lia. simpl. by rewrite for_each_skip.
Qed.

Lemma SFleb_not_lt a b : SFleb a b = true → SFltb b a = false.
Proof.
  unfold SFleb, SFltb.
  destruct a as [sa|sa| |sa ma ea], b as [sb|sb| |sb mb eb]; simpl;
    try destruct sa; try destruct sb; simpl; try done.
  all: change (Pos.compare_cont Eq ?m ?n) with (Pos.compare m n).
  all: rewrite (Z.compare_antisym ea eb), (Pos.compare_antisym ma mb).
  all: by destruct (ea ?= eb), (ma ?= mb)%positive.
Qed.

Lemma max32_one v : unit32 v = true → max32 v Binary32.one = Binary32.one.
Proof.
  intros Hv. unfold max32. destruct (SFltb v Binary32.one) eqn:Hlt; [done|].
  apply unit32_trichotomy; [done..|].
  apply SFleb_not_lt. by apply unit32_bounds.
Qed.

(** X10: a press on the exact centre of a cell makes that cell full: in any
    reachable state, painting at (10 c + 5, 10 r + 5) leaves intensity 1.0
    in cell (r, c) and the colour #000000 on the canvas. *)
Theorem centre_press_fills_cell es r c :
  0 ≤ r < rows → 0 ≤ c < cols →
  ∃ s a', run_events (init_app, false) es = Some s ∧
          antialiased_paint s.1 (cell_size * c + cell_size / 2)
                                (cell_size * r + cell_size / 2) = Some a' ∧
          grid_get (pixels a') r c = Some Binary32.one ∧
          grid_get (cell_fill a') r c = Some "#000000".
Proof.
  intros Hr Hc. destruct (reach es) as (s & Hrun & Hwf & Hsync & _).
  set (x := cell_size * c + cell_size / 2). set (y := cell_size * r + cell_size / 2).
  destruct (paint_effect s.1 x y Hwf Hsync) as (a' & Hpaint & Hwf' & Hsync' & _).
  destruct (paint_pixels s.1 x y Hwf) as (b & Hb & _ & Hpx).
  rewrite Hpaint in Hb. injection Hb as <-.
  exists s, a'. split; [done|]. split; [done|].
  destruct (proj2 (has_shape_get (pixels s.1) r c (proj1 Hwf))) as [old Hold]; [done|].
  assert (cell_dist2 x y r c = 0) as Hd.
  { unfold cell_dist2, x, y. rewrite !cell_centre. change cell_size with 10.
    change (10 / 2) with 5. lia. }
  assert (grid_get (pixels a') r c = Some Binary32.one) as Hone.
  { rewrite (Hpx _ _ _ Hold), Hd. simpl. f_equal.
    change (brush32 0) with Binary32.one. apply max32_one.
    destruct (Hsync _ _ _ Hold) as (f & _ & Hok). by eapply cell_ok_unit. }
  split; [done|].
  destruct (Hsync' _ _ _ Hone) as (f & -> & [[Hz _]|(n & Hn & Hp & ->)]); [done|].
  change Binary32.one with (brush32 0) in Hp.
  apply brush32_inj in Hp as <-; [done|lia|lia].
Qed.

(** ** The vector handed to the network *)

Lemma has_shape_map {A B} (f : A → B) (g : grid A) :
  has_shape g = true → has_shape (map (map f) g) = true.
Proof.
  rewrite !has_shape_spec, length_map. intros [Hl Hrow]. split; [done|].
  intros i row. rewrite list_lookup_fmap.
  destruct (g !! i) as [row0|] eqn:Hi; [|done]. simpl. intros [= <-].
  rewrite length_map. eauto.
Qed.

Lemma has_shape_affine img sx sy :
  has_shape img = true → has_shape (affine_translate img sx sy) = true.
Proof.
  rewrite !has_shape_spec. unfold affine_translate. rewrite length_imap.
  intros [Hl Hrow]. split; [done|]. intros i row. rewrite list_lookup_imap.
  destruct (img !! i) as [row0|] eqn:Hi; [|done]. simpl. intros [= <-].
  rewrite length_imap. eauto.
Qed.

Lemma has_shape_recenter img :
  has_shape img = true → has_shape (recenter img) = true.
Proof.
  intros Hs. unfold recenter. destruct (nonzero img); [done|].
  destruct (center_shift img). by apply has_shape_affine.
Qed.

Lemma has_shape_stretch img :
  has_shape img = true → has_shape (contrast_stretch img) = true.
Proof.
  intros Hs. unfold contrast_stretch. destruct (SFltb _ _); by repeat apply has_shape_map.
Qed.

Lemma has_shape_concat {A} (g : grid A) :
  has_shape g = true → length (concat g) = Z.to_nat (rows * cols).
Proof.
  intros [Hl Hrow]%has_shape_spec.
  assert (Hall : ∀ row, row ∈ g → length row = Z.to_nat cols).
  { intros row [i Hi]%list_elem_of_lookup_1. eauto. }
  rewrite Z2Nat.inj_mul, <- Hl by done. clear Hl Hrow.
  induction g as [|row g IH]; [done|]. simpl.
  rewrite length_app, IH, (Hall row) by (intros; try apply Hall; by constructor).
  simpl. lia.
Qed.

(** X11: if the blur keeps the size of the image, as the imaging library
    does, the vector handed to the network has exactly 784 entries for
    every 28x28 grid: the reshape to (784, 1) cannot fail. *)
Theorem preprocess_length a :
  (∀ img, has_shape img = true → has_shape (gaussian_blur img) = true) →
  wf a →
  length (preprocess (pixels a)) = 784%nat.
Proof.
  intros Hblur [Hpx _]. unfold preprocess.
  rewrite has_shape_concat; [done|].
  by apply has_shape_stretch, Hblur, has_shape_recenter, has_shape_map.
Qed.

(** ** The range of the contrast stretch *)

Lemma byte_sub a b :
  is_byte a = true → is_byte b = true → a ≤ b →
  Binary32.sub (Binary32.of_Z b) (Binary32.of_Z a) = Binary32.of_Z (b - a).
Proof.
  intros Ha Hb Hab.
  pose proof (forallb_bytes
    (λ a fa b fb, if a <=? b
                  then bool_decide (Binary32.sub fb fa = Binary32.of_Z (b - a))
                  else true)) as H.
  specialize (H ltac:(by vm_compute) a b Ha Hb). simpl in H.
  rewrite (proj2 (Z.leb_le _ _) Hab) in H. by apply bool_decide_eq_true in H.
Qed.

Lemma byte_div_unit a b :
  is_byte a = true → is_byte b = true → a ≤ b → 1 ≤ b →
  unit32 (Binary32.div (Binary32.of_Z a) (Binary32.of_Z b)) = true.
Proof.
  intros Ha Hb Hab Hb1.
  pose proof (forallb_bytes
    (λ a fa b fb, if (a <=? b) && (1 <=? b)
                  then unit32 (Binary32.div fa fb) else true)) as H.
  specialize (H ltac:(by vm_compute) a b Ha Hb). simpl in H.
  by rewrite (proj2 (Z.leb_le _ _) Hab), (proj2 (Z.leb_le _ _) Hb1) in H.
Qed.

Lemma rescale_unit mn mx v :
  is_byte mn = true → is_byte mx = true → mn ≤ v ≤ mx → mn < mx →
  unit32 (rescale mn mx v) = true.
Proof.
  intros Hmn Hmx Hv Hlt.
  assert (is_byte v = true) as Hbv.
  { unfold is_byte in *. apply andb_true_iff in Hmn as [?%Z.leb_le ?%Z.leb_le].
    apply andb_true_iff in Hmx as [?%Z.leb_le ?%Z.leb_le].
    apply andb_true_iff. split; apply Z.leb_le; lia. }
  unfold rescale. rewrite !byte_sub by (done || lia).
  unfold is_byte in *. apply andb_true_iff in Hmn as [?%Z.leb_le ?%Z.leb_le].
  apply andb_true_iff in Hmx as [?%Z.leb_le ?%Z.leb_le].
  apply byte_div_unit; try lia; unfold is_byte; apply andb_true_iff;
    split; apply Z.leb_le; lia.
Qed.

Lemma contrast_stretch_rescale img mn mx :
  byte_image img = true →
  mn ∈ concat img → mx ∈ concat img →
  Forall (λ v, mn ≤ v ≤ mx) (concat img) → mn < mx →
  contrast_stretch img = map (map (rescale mn mx)) img.
Proof.
  intros Himg Hmn Hmx Hall Hlt.
  pose proof (byte_image_concat img Himg) as Hbytes.
  assert (Hb : ∀ v, v ∈ concat img → is_byte v = true).
  { intros v Hv. rewrite forallb_forall in Hbytes.
    by apply Hbytes, list_elem_of_In. }
  unfold contrast_stretch. rewrite <- !concat_map.
  rewrite (np_min_bytes _ mn), (np_max_bytes _ mx); try done;
    try (eapply Forall_impl; [exact Hall|]; simpl; lia).
  rewrite byte_ltb, (proj2 (Z.ltb_lt _ _) Hlt) by auto.
  rewrite map_map. apply map_ext. intros row. by rewrite map_map.
Qed.

(** X12: on an 8-bit image that is not constant, every value the contrast
    stretch produces lies between 0 and 1 (it is +0 or a positive float32
    not above 1.0). *)
Theorem contrast_stretch_range img mn mx :
  byte_image img = true →
  mn ∈ concat img → mx ∈ concat img →
  Forall (λ v, mn ≤ v ≤ mx) (concat img) → mn < mx →
  Forall (λ v, unit32 v = true) (concat (contrast_stretch img)).
Proof.
  intros Himg Hmn Hmx Hall Hlt.
  rewrite (contrast_stretch_rescale img mn mx) by done.
  rewrite <- concat_map. apply Forall_fmap.
  pose proof (byte_image_concat img Himg) as Hbytes.
  rewrite forallb_forall in Hbytes.
  eapply Forall_impl; [exact Hall|]. intros v Hv. simpl.
  apply rescale_unit; [apply Hbytes, list_elem_of_In, Hmn
                      |apply Hbytes, list_elem_of_In, Hmx|done..].
Qed.

(** ** Forward passes *)

Lemma run_events_passes es : ∀ s,
  consistent s.1 →
  ∃ s', run_events s es = Some s' ∧ consistent s'.1 ∧
        (length (forward_log s'.1)
         ≤ length (forward_log s.1) + length (filter is_pointer_event es))%nat.
Proof.
  induction es as [|e es IH]; intros [a d] Hc; cbn [run_events].
  - exists (a, d). simpl. split; [done|]. split; [done|]. lia.
  - assert (∃ s1, handle (a, d) e = Some s1 ∧ consistent s1.1 ∧
              (length (forward_log s1.1)
               ≤ length (forward_log a) + (if is_pointer_event e then 1 else 0))%nat)
      as (s1 & -> & Hc1 & Hlen1).
    { assert (Hpaint : ∀ x y, ∃ a', antialiased_paint a x y = Some a' ∧
                consistent a' ∧
                (length (forward_log a') ≤ length (forward_log a) + 1)%nat).
      { intros x y. simpl in Hc. destruct Hc as (Hwf & Hsync & Htext).
        destruct (paint_effect a x y Hwf Hsync) as (a' & Hp & Hwf' & Hsync' & Hcase).
        exists a'. split; [done|].
        destruct Hcase as [->|(_ & Hlog & _ & Htext')].
        - split; [done|lia].
        - split; [done|]. rewrite Hlog, length_app. simpl. lia. }
      destruct e as [x y|x y| |]; unfold handle, start_draw, draw, stop_draw;
        cbn [fst snd is_pointer_event].
      - destruct (Hpaint x y) as (a' & -> & ? & ?). simpl. eauto.
      - destruct d.
        + destruct (Hpaint x y) as (a' & -> & ? & ?). simpl. eauto.
        + exists (a, false). simpl. split; [done|]. split; [done|]. lia.
      - exists (a, false). simpl. split; [done|]. split; [done|]. lia.
      - destruct (clear_consistent a) as (a' & -> & ? & Hl & _); [apply Hc|].
        simpl. eexists. split; [done|]. simpl. split; [done|]. rewrite Hl. lia. }
    simpl. destruct (IH s1 Hc1) as (s' & Hrun & Hc' & Hlen).
    exists s'. split; [done|]. split; [done|]. rewrite filter_cons.
    cbn [fst] in *. destruct (is_pointer_event e) eqn:He.
    + rewrite decide_True by done. simpl. lia.
    + rewrite decide_False by (by intros []). lia.
Qed.

(** X13: the network is called at most once for every press or drag:
    after any sequence of events from start-up, the number of forward
    passes made is at most the number of presses and motions in it;
    releases and clicks on Clear make none. *)
Theorem forward_passes_bounded es :
  ∃ s, run_events (init_app, false) es = Some s ∧
       (length (forward_log s.1) ≤ length (filter is_pointer_event es))%nat.
Proof.
  destruct (run_events_passes es (init_app, false)) as (s & Hrun & _ & Hlen).
  - apply init_consistent.
  - exists s. split; [done|]. exact Hlen.
Qed.

Lemma paint_idle a x y :
  wf a → in_sync a →
  (∀ r c v, grid_get (pixels a) r c = Some v → brushed x y r c v = v) →
  antialiased_paint a x y = Some a.
Proof.
  intros Hwf Hsync Hfix.
  destruct (paint_effect a x y Hwf Hsync) as (a' & Hpaint & _ & _ & Hcase).
  rewrite Hpaint. destruct Hcase as [->|(Hgrew & _)]; [done|]. exfalso.
  destruct Hgrew as (r & c & old & new & Hold & Hnew & Hlt).
  destruct (paint_pixels a x y Hwf) as (b & Hb & _ & Hpx).
  rewrite Hpaint in Hb. injection Hb as <-.
  rewrite (Hpx _ _ _ Hold) in Hnew. injection Hnew as <-.
  change (SFltb old (brushed x y r c old) = true) in Hlt.
  by rewrite (Hfix _ _ _ Hold), SFltb_irrefl in Hlt.
Qed.

Lemma brushed_idem x y r c v : brushed x y r c (brushed x y r c v) = brushed x y r c v.
Proof.
  unfold brushed. destruct (_ <=? _); [|done]. apply max32_idem.
Qed.

Lemma foldl_brushed_absorb r c stroke p v :
  p ∈ stroke → unit32 v = true →
  brushed p.1 p.2 r c (foldl (λ v p, brushed p.1 p.2 r c v) v stroke)
    = foldl (λ v p, brushed p.1 p.2 r c v) v stroke.
Proof.
  intros [rest Hperm]%elem_of_Permutation Hv.
  rewrite <- (foldl_snoc (λ v p, brushed p.1 p.2 r c v)).
  rewrite (foldl_brushed_perm r c (stroke ++ [p]) (p :: p :: rest)), 
          (foldl_brushed_perm r c stroke (p :: rest)); try done.
  - simpl. by rewrite brushed_idem.
  - by rewrite <- Permutation_cons_append, Hperm.
Qed.

(** X14: retracing is idle.  Once a stroke has been painted, painting any
    position of it again, the last one or an earlier one, leaves the whole
    state, grid, canvas, panel and network log, as it is. *)
Theorem retrace_is_idle es stroke x y :
  (x, y) ∈ stroke →
  ∃ s a', run_events (init_app, false) es = Some s ∧
          paint_all s.1 stroke = Some a' ∧
          antialiased_paint a' x y = Some a'.
Proof.
  intros Hin. destruct (reach es) as (s & Hrun & Hwf & Hsync & Htext).
  destruct (paint_all_pixels stroke s.1 Hwf Hsync Htext)
    as (a' & Hrun' & (Hwf' & Hsync' & _) & Hpx).
  exists s, a'. split; [done|]. split; [done|].
  apply paint_idle; [done..|]. intros r c v Hv.
  assert (is_Some (grid_get (pixels s.1) r c)) as [old Hold].
  { apply (has_shape_get (pixels s.1)); [apply Hwf|].
    apply (has_shape_get (pixels a')); [apply Hwf'|by eexists]. }
  rewrite (Hpx _ _ _ Hold) in Hv. injection Hv as <-.
  apply (foldl_brushed_absorb r c stroke (x, y)); [done|].
  destruct (Hsync _ _ _ Hold) as (f & _ & Hok). by eapply cell_ok_unit.
Qed.


(** X15: what the user sees is a function of the grid: two reachable
    states with the same intensities show the same canvas colours and the
    same results panel, however each was drawn. *)
Theorem display_depends_on_grid_alone es1 es2 :
  ∃ s1 s2, run_events (init_app, false) es1 = Some s1 ∧
           run_events (init_app, false) es2 = Some s2 ∧
           (pixels s1.1 = pixels s2.1 →
            cell_fill s1.1 = cell_fill s2.1 ∧ results_text s1.1 = results_text s2.1).
Proof.
  destruct (reach es1) as (s1 & Hrun1 & Hwf1 & Hsync1 & Htext1).
  destruct (reach es2) as (s2 & Hrun2 & Hwf2 & Hsync2 & Htext2).
  exists s1, s2. split; [done|]. split; [done|]. intros Heq.
  split; [|by rewrite Htext1, Htext2, Heq].
  apply grid_ext; [apply Hwf1|apply Hwf2|]. intros r c Hr Hc.
  destruct (proj2 (has_shape_get (pixels s1.1) r c (proj1 Hwf1))) as [p Hp]; [done|].
  destruct (Hsync1 _ _ _ Hp) as (f1 & -> & Hok1).
  rewrite Heq in Hp. destruct (Hsync2 _ _ _ Hp) as (f2 & -> & Hok2).
  f_equal. by eapply cell_ok_fun.
Qed.

(** X16: for an 8-bit image whose only nonzero pixel is at (r0, c0), the
    recentring leaves that pixel's value at (2 r0 - 14, 2 c0 - 14), if that
    cell is in the image, and 0 in every other cell; a pixel at the centre
    (14, 14) stays where it is. *)
Theorem recenter_of_single_pixel img r0 c0 w r c :
  nonzero img = [(r0, c0, w)] →
  0 ≤ r0 < rows → 0 ≤ c0 < cols → 1 ≤ w ≤ 255 →
  is_Some (grid_get img r c) →
  grid_get (recenter img) r c
    = Some (if decide (r = 2 * r0 - rows / 2 ∧ c = 2 * c0 - cols / 2) then w else 0).
Proof. intros. by apply single_pixel_recenter. Qed.

(** X17: the first line of the ranking is a most probable digit: if the
    ranking starts with [d], then [d] has a probability and no output of
    the network is strictly greater than it. *)
Theorem top_rank_is_most_probable probs d rest :
  ranking probs = d :: rest →
  ∃ pd, probs !! d = Some pd ∧
        ∀ e pe, probs !! e = Some pe → SFltb pd pe = false.
Proof.
  intros Hrank. destruct (ranking_spec probs) as [Hperm Hsorted].
  rewrite Hrank in Hperm, Hsorted.
  apply StronglySorted_inv in Hsorted as [_ Hall].
  assert (d ∈ seq 0 (length probs)) as Hd by (rewrite <- Hperm; left).
  apply elem_of_seq in Hd as [_ Hd]. simpl in Hd.
  destruct (lookup_lt_is_Some_2 probs d Hd) as [pd Hpd].
  exists pd. split; [done|]. intros e pe Hpe.
  assert (e ∈ d :: rest) as He.
  { rewrite Hperm. apply elem_of_seq. pose proof (lookup_lt_Some _ _ _ Hpe). lia. }
  apply elem_of_cons in He as [->|He].
  - rewrite Hpd in Hpe. injection Hpe as <-. apply SFltb_irrefl.
  - rewrite Forall_forall in Hall.
    destruct (Hall e He) as (pd' & pe' & Hpd' & Hpe' & Hlt & _).
    rewrite Hpd in Hpd'. rewrite Hpe in Hpe'. by simplify_eq.
Qed.

End Collaborators.

(** * The properties at concrete inputs *)

(** C2, as the specification words it, fails: the percentage is padded to
    six characters, so two spaces follow the colon. *)
Lemma ranked_first_line_not_single_space :
  np_any (pixels one_pixel_app) = true ∧
  mock_net (preprocess no_blur (pixels one_pixel_app)) = mock_probs ∧
  first_line (results_text (update_results no_blur mock_net one_pixel_app))
    ≠ "9: 90.00%".
Proof. split; [by vm_compute|]. split; [done|]. by vm_compute. Qed.

Lemma ranked_first_line_witness :
  first_line (results_text (update_results no_blur mock_net one_pixel_app))
    = "9:  90.00%" ∧
  ∀ d p, mock_probs !! d = Some p →
    ranked_line mock_probs d
      = pretty d +:+ ": "
        +:+ pad_left 6 (format_2f (Binary64.mul p (Binary64.of_Z 100)))
        +:+ "%" +:+ newline.
Proof.
  apply (ranked_first_line no_blur mock_net one_pixel_app); [by vm_compute|done].
Defined.

(** C1: the recentring of a single pixel.  The pad holds one pixel of full
    intensity at row 10, column 10; the shift computed is (4, 4), the very
    offset to the centre (14, 14), but the transform reads each output
    pixel (x, y) from the input at (x + 4, y + 4), so the pixel lands at
    (6, 6), twice as far from the centre as it was. *)
Theorem recenter_single_pixel_moves_away :
  nonzero (scale_to_bytes (pixels one_pixel_app)) = [(10, 10, 255)] ∧
  center_shift (scale_to_bytes (pixels one_pixel_app)) = (4, 4) ∧
  nonzero (recenter (scale_to_bytes (pixels one_pixel_app))) = [(6, 6, 255)] ∧
  grid_get (recenter (scale_to_bytes (pixels one_pixel_app))) 14 14 = Some 0.
Proof. by vm_compute. Qed.

(** C3 on the pad that holds 1.0 in cell (10, 10), the pointer at
    (108, 109).  Cell (10, 11), blank, is at squared distance 65 and takes
    the intensity of that distance; cell (10, 10), at squared distance 25,
    keeps its 1.0, which is greater; cell (10, 13), at squared distance
    745, is beyond the radius and stays blank. *)
Lemma paint_postcondition_witness :
  (∃ a', antialiased_paint no_blur mock_net one_pixel_app 108 109 = Some a' ∧
         in_box 108 109 10 11 ∧
         near_falloff 65 (linear_falloff 65) = true ∧
         grid_get (pixels a') 10 11 = Some (linear_falloff 65)) ∧
  (∃ a', antialiased_paint no_blur mock_net one_pixel_app 108 109 = Some a' ∧
         in_box 108 109 10 10 ∧
         near_falloff 25 (linear_falloff 25) = true ∧
         grid_get (pixels a') 10 10 = Some Binary32.one) ∧
  (∃ a', antialiased_paint no_blur mock_net one_pixel_app 108 109 = Some a' ∧
         grid_get (pixels a') 10 13 = Some Binary32.zero).
Proof.
  assert (wf one_pixel_app) as Hwf by (split; reflexivity).
  split; [|split].
  - destruct (paint_postcondition no_blur mock_net one_pixel_app 108 109 10 11
                Binary32.zero Hwf eq_refl) as (a' & Hrun & Hin & _).
    exists a'. split; [exact Hrun|]. apply Hin. by vm_compute.
  - destruct (paint_postcondition no_blur mock_net one_pixel_app 108 109 10 10
                Binary32.one Hwf eq_refl) as (a' & Hrun & Hin & _).
    exists a'. split; [exact Hrun|]. apply Hin. by vm_compute.
  - destruct (paint_postcondition no_blur mock_net one_pixel_app 108 109 10 13
                Binary32.zero Hwf eq_refl) as (a' & Hrun & _ & Hout).
    exists a'. split; [exact Hrun|]. apply Hout. by vm_compute.
Defined.

Lemma paint_monotonic_witness :
  (∃ a' new,
     paint_all no_blur mock_net one_pixel_app [(115, 105); (105, 105); (300, -20)]
       = Some a' ∧
     grid_get (pixels a') 10 10 = Some new ∧
     SFltb new Binary32.one = false ∧
     (new = Binary32.one ∨ SFltb Binary32.one new = true)) ∧
  (∃ s' new,
     run_events no_blur mock_net (one_pixel_app, false)
       [Motion 95 105; ButtonPress 115 105; Motion 116 108; ButtonRelease]
       = Some s' ∧
     grid_get (pixels s'.1) 10 10 = Some new ∧
     SFltb new Binary32.one = false ∧
     (new = Binary32.one ∨ SFltb Binary32.one new = true)).
Proof.
  apply (paint_monotonic no_blur mock_net one_pixel_app
           [(115, 105); (105, 105); (300, -20)]
           [Motion 95 105; ButtonPress 115 105; Motion 116 108; ButtonRelease]
           false 10 10 Binary32.one).
  - split; reflexivity.
  - reflexivity.
  - repeat constructor; discriminate.
Defined.

Lemma paint_in_bounds_witness :
  (∃ a', antialiased_paint no_blur mock_net one_pixel_app (-3) 276 = Some a') ∧
  (∀ r c, r ∈ range (r_min 276) (r_max 276 + 1) →
          c ∈ range (c_min (-3)) (c_max (-3) + 1) →
          0 ≤ r ≤ rows - 1 ∧ 0 ≤ c ≤ cols - 1) ∧
  (r_max 276 < r_min 276 ∨ c_max (-3) < c_min (-3) →
   antialiased_paint no_blur mock_net one_pixel_app (-3) 276 = Some one_pixel_app).
Proof.
  apply (paint_in_bounds no_blur mock_net one_pixel_app (-3) 276).
  split; reflexivity.
Defined.


(** C10 on a store of two objects, with a filter and a network that empty
    the buffer they are handed: the two objects are as before, and the
    emptied buffers are objects behind them. *)
Lemma update_results_frame_witness :
  ∃ h' text passes,
    update_results_in no_blur mock_net wipe_image wipe_array sample_store 1
      = Some (h', text, passes) ∧
    (∀ l o, sample_store !! l = Some o → h' !! l = Some o) ∧
    read_f32 h' 1 = Some (pixels one_pixel_app) ∧
    text = results_text (update_results no_blur mock_net one_pixel_app) ∧
    forward_log (update_results no_blur mock_net one_pixel_app)
      = forward_log one_pixel_app ++ passes ∧
    ∃ pil_img vect,
      (2 ≤ pil_img)%nat ∧ (2 ≤ vect)%nat ∧
      read_u8 h' pil_img = Some [] ∧ read_f32 h' vect = Some [].
Proof.
  destruct (update_results_frame no_blur mock_net wipe_image wipe_array
              sample_store 1%nat one_pixel_app eq_refl)
    as (h' & text & passes & Hrun & Hframe & Hread & Htext & Hlog & Hmade).
  exists h', text, passes.
  split; [exact Hrun|]. split; [exact Hframe|]. split; [exact Hread|].
  split; [exact Htext|]. split; [exact Hlog|].
  apply Hmade. by vm_compute.
Defined.

Lemma contrast_stretch_spec_witness :
  (10 < 40 →
     contrast_stretch [[10; 20]; [40; 30]]
       = map (map (rescale 10 40)) [[10; 20]; [40; 30]] ∧
     rescale 10 40 10 = Binary32.zero ∧
     rescale 10 40 40 = Binary32.one) ∧
  (10 = 40 →
     contrast_stretch [[10; 20]; [40; 30]]
       = map (map Binary32.of_Z) [[10; 20]; [40; 30]]).
Proof.
  apply (contrast_stretch_spec [[10; 20]; [40; 30]] 10 40).
  - reflexivity.
  - apply list_elem_of_In. simpl. tauto.
  - apply list_elem_of_In. simpl. tauto.
  - simpl. repeat constructor; lia.
Defined.

Lemma ranked_rendering_witness :
  ∃ ds,
    line_digit <$> text_lines (results_text
                                 (update_results no_blur mock_net one_pixel_app))
      = Some <$> ds ∧
    ds ≡ₚ seq 0 10 ∧
    StronglySorted (not_below (mock_net (preprocess no_blur (pixels one_pixel_app))))
                   ds.
Proof.
  apply (ranked_rendering no_blur mock_net one_pixel_app).
  - by vm_compute.
  - reflexivity.
Defined.


Lemma clear_restores_startup_witness :
  clear no_blur mock_net one_pixel_app
    = Some (mkApp (pixels (init_app no_blur mock_net))
                  (cell_fill (init_app no_blur mock_net))
                  (results_text (init_app no_blur mock_net))
                  (forward_log one_pixel_app)).
Proof.
  apply (clear_restores_startup no_blur mock_net one_pixel_app).
  split; reflexivity.
Defined.

Lemma stroke_order_is_immaterial_witness :
  ∃ s a1 a2,
    run_events no_blur mock_net (init_app no_blur mock_net, false)
      [ButtonPress 50 50] = Some s ∧
    paint_all no_blur mock_net s.1 [(105, 105); (115, 105)] = Some a1 ∧
    paint_all no_blur mock_net s.1 [(115, 105); (105, 105)] = Some a2 ∧
    pixels a1 = pixels a2 ∧ cell_fill a1 = cell_fill a2 ∧
    results_text a1 = results_text a2.
Proof.
  apply (stroke_order_is_immaterial no_blur mock_net [ButtonPress 50 50]
           [(105, 105); (115, 105)] [(115, 105); (105, 105)]).
  apply perm_swap.
Defined.

Lemma pointer_far_outside_is_idle_witness :
  antialiased_paint no_blur mock_net one_pixel_app (-20) 100 = Some one_pixel_app.
Proof.
  apply (pointer_far_outside_is_idle no_blur mock_net one_pixel_app (-20) 100).
  left. reflexivity.
Defined.

Lemma centre_press_fills_cell_witness :
  ∃ s a',
    run_events no_blur mock_net (init_app no_blur mock_net, false)
      [ButtonPress 58 31; Motion 60 33] = Some s ∧
    antialiased_paint no_blur mock_net s.1
      (cell_size * 4 + cell_size / 2) (cell_size * 3 + cell_size / 2) = Some a' ∧
    grid_get (pixels a') 3 4 = Some Binary32.one ∧
    grid_get (cell_fill a') 3 4 = Some "#000000".
Proof.
  apply (centre_press_fills_cell no_blur mock_net
           [ButtonPress 58 31; Motion 60 33] 3 4); unfold rows, cols; lia.
Defined.

Lemma preprocess_length_witness :
  length (preprocess no_blur (pixels one_pixel_app)) = 784%nat.
Proof.
  apply (preprocess_length no_blur one_pixel_app).
  - intros img Himg. exact Himg.
  - split; reflexivity.
Defined.

Lemma contrast_stretch_range_witness :
  Forall (λ v, unit32 v = true) (concat (contrast_stretch [[10; 20]; [40; 30]])).
Proof.
  apply (contrast_stretch_range [[10; 20]; [40; 30]] 10 40).
  - reflexivity.
  - apply list_elem_of_In. simpl. tauto.
  - apply list_elem_of_In. simpl. tauto.
  - simpl. repeat constructor; lia.
  - lia.
Defined.

Lemma retrace_is_idle_witness :
  ∃ s a',
    run_events no_blur mock_net (init_app no_blur mock_net, false)
      [ButtonPress 50 50] = Some s ∧
    paint_all no_blur mock_net s.1 [(105, 105); (115, 105); (125, 108)] = Some a' ∧
    antialiased_paint no_blur mock_net a' 105 105 = Some a'.
Proof.
  apply (retrace_is_idle no_blur mock_net [ButtonPress 50 50]
           [(105, 105); (115, 105); (125, 108)] 105 105).
  apply list_elem_of_In. simpl. tauto.
Defined.

Lemma recenter_of_single_pixel_witness :
  grid_get (recenter (scale_to_bytes (pixels one_pixel_app))) 6 6
    = Some (if decide (6 = 2 * 10 - rows / 2 ∧ 6 = 2 * 10 - cols / 2)
            then 255 else 0).
Proof.
  apply (recenter_of_single_pixel (scale_to_bytes (pixels one_pixel_app))
           10 10 255 6 6).
  - reflexivity.
  - unfold rows. lia.
  - unfold cols. lia.
  - lia.
  - eexists. reflexivity.
Defined.

Lemma top_rank_is_most_probable_witness :
  ∃ pd, mock_probs !! 9%nat = Some pd ∧
        ∀ e pe, mock_probs !! e = Some pe → SFltb pd pe = false.
Proof.
  apply (top_rank_is_most_probable mock_probs 9%nat [0; 8; 7; 6; 5; 4; 3; 2; 1]%nat).
  reflexivity.
Defined.
